(** * pyMOR thermal block demo: a shallow embedding and its properties

    The development follows the three source files

    - [pymor/analyticalproblems/thermalblock.py]
      ([ThermalBlockProblem], [ThermalBlockDiffusionFunction]),
    - [pymor/demos/thermalblock_gui.py]
      ([ParamRuler], [SimPanel.solve_update], [SimBase], [ReducedSim],
      [DetailedSim]),
    - [pymordemos/cg_oned.py] ([cg_oned_demo]).

    Python integers are [Z]; tuples are lists or pairs; dictionaries with
    string keys are [gmap string _]; exceptions are the left summand of a
    sum type.  Numbers stored in numpy arrays are kept abstract behind the
    class [Scalar], with two instances: [float] (IEEE binary64, which is what
    CPython and numpy compute with) and [Q] (exact rationals, the arithmetic
    the geometric statements of the specification speak about). *)

From Stdlib Require Import ZArith QArith Qround Floats Uint63 Lia Lqa.
From stdpp Require Import base option list gmap strings pretty.

Local Open Scope Z_scope.

(** ** Python exceptions raised or propagated by the modelled code *)

Inductive exn : Type :=
  | ZeroDivisionError
  | AssertionError (arg : exn)   (* [assert cond, arg] *)
  | ValueError (msg : string)
  | NameError (name : string)
  | IndexError
  | AttributeError (attr : string)
  | ParameterTypeMismatch
  | EmptyTrainingSet
  | BasisExtensionStalled
  | LinearSolverFailure.

Definition result (A : Type) : Type := exn + A.

Definition ret {A} (a : A) : result A := inr a.
Definition raise {A} (e : exn) : result A := inl e.
Definition bind {A B} (r : result A) (k : A -> result B) : result B :=
  match r with
  | inl e => inl e
  | inr a => k a
  end.

Notation "'let*' x := r 'in' k" := (bind r (fun x => k))
  (at level 10, x pattern, r at level 100, k at level 200).

(** ** Scalars: the element type of numpy arrays *)

Class Scalar (T : Type) : Type := {
  of_Z : Z -> T;          (* conversion of a Python int *)
  sadd : T -> T -> T;
  ssub : T -> T -> T;
  smul : T -> T -> T;
  sdiv : T -> T -> T;     (* true division; the divisor is non-zero *)
  sleb : T -> T -> bool;  (* a <= b *)
  sltb : T -> T -> bool   (* a < b *)
}.

(** A comparison of arrays gives a boolean array; multiplied with a float
    array its entries count as 1.0 and 0.0. *)
Definition of_bool {T} `{Scalar T} (b : bool) : T := of_Z (if b then 1 else 0).

(** [float(z)] for a Python int: exact up to 2^53, rounded to nearest
    beyond, defined below 2^63 (the range of [xrange] arguments). *)
Definition float_of_Z (z : Z) : float :=
  match z with
  | Z0 => 0%float
  | Zpos _ => PrimFloat.of_uint63 (Uint63.of_Z z)
  | Zneg _ => PrimFloat.opp (PrimFloat.of_uint63 (Uint63.of_Z (- z)))
  end.

#[export] Instance float_scalar : Scalar float := {|
  of_Z := float_of_Z;
  sadd := PrimFloat.add;
  ssub := PrimFloat.sub;
  smul := PrimFloat.mul;
  sdiv := PrimFloat.div;
  sleb := PrimFloat.leb;
  sltb := PrimFloat.ltb
|}.

#[export] Instance Q_scalar : Scalar Q := {|
  of_Z := inject_Z;
  sadd := Qplus;
  ssub := Qminus;
  smul := Qmult;
  sdiv := Qdiv;
  sleb := Qle_bool;
  sltb := fun a b => negb (Qle_bool b a)
|}.

(** ** numpy arrays and parameters *)

(** An n-dimensional array: its shape and its entries in row-major order. *)
Record ndarray (T : Type) : Type := mk_ndarray {
  shape : list Z;
  data : list T
}.
Arguments mk_ndarray {T} _ _.
Arguments shape {T} _.
Arguments data {T} _.

Definition size_of_shape (s : list Z) : Z := foldr Z.mul 1 s.

(** [np.array(values)]: a one-dimensional array. *)
Definition np_array {T} (values : list T) : ndarray T :=
  mk_ndarray [Z.of_nat (length values)] values.

(** [a.reshape(s)] for a shape [s] of non-negative extents: the entries are
    kept, the total size has to agree.  (numpy's wildcard extent -1 is not
    modelled; block counts are positive.) *)
Definition reshape {T} (a : ndarray T) (s : list Z) : result (ndarray T) :=
  if forallb (Z.leb 0) s && (size_of_shape s =? Z.of_nat (length (data a)))
  then ret (mk_ndarray s (data a))
  else raise (ValueError "total size of new array must be unchanged").


(** ** thermalblock.py *)

Record ProjectionParameterFunctional : Type := mk_ProjectionParameterFunctional {
  component_name : string;
  component_shape : list Z;
  coordinates : list Z;
  name : option string
}.

Record ThermalBlockDiffusionFunction (T : Type) : Type := mk_ThermalBlockDiffusionFunction {
  tb_x : Z;
  tb_y : Z;
  tb_dx : T;
  tb_dy : T
}.
Arguments mk_ThermalBlockDiffusionFunction {T} _ _ _ _.
Arguments tb_x {T} _.
Arguments tb_y {T} _.
Arguments tb_dx {T} _.
Arguments tb_dy {T} _.

Section ThermalBlock.
Context {T : Type} `{Scalar T}.

(** [ThermalBlockDiffusionFunction.evaluate(self, x, mu=None)] at one
    point [p = (x[..., 0], x[..., 1])]; numpy applies it to every point of
    the array.  The product is left-nested, as Python parses it. *)
Definition evaluate (f : ThermalBlockDiffusionFunction T) (p : T * T)
    (mu : option (gmap string (ndarray T))) : T :=
  smul (smul (smul (smul (of_Z 1)
    (of_bool (sleb (smul (of_Z (tb_x f)) (tb_dx f)) (fst p))))
    (of_bool (sltb (fst p) (smul (of_Z (tb_x f + 1)) (tb_dx f)))))
    (of_bool (sleb (smul (of_Z (tb_y f)) (tb_dy f)) (snd p))))
    (of_bool (sltb (snd p) (smul (of_Z (tb_y f + 1)) (tb_dy f)))).

(** [xrange(n)] and [itertools.product]. *)
Definition xrange (n : Z) : list Z := seqZ 0 n.

Definition product {A B} (l : list A) (k : list B) : list (A * B) :=
  flat_map (fun a => map (fun b => (a, b)) k) l.

(** The inner function [parameter_functional_factory] of
    [ThermalBlockProblem.__init__]; it closes over [num_blocks]. *)
Definition parameter_functional_factory (num_blocks : Z * Z) (x y : Z)
    : ProjectionParameterFunctional :=
  {| component_name := "diffusion";
     component_shape := [snd num_blocks; fst num_blocks];
     coordinates := [snd num_blocks - y - 1; x];
     name := Some ("diffusion_" +:+ pretty x +:+ "_" +:+ pretty y) |}.

Record CubicParameterSpace : Type := mk_CubicParameterSpace {
  space_parameter_type : gmap string (list Z);
  space_minimum : T;
  space_maximum : T
}.

Record ThermalBlockProblem (F : Type) : Type := mk_ThermalBlockProblem {
  domain : string;
  rhs : F;
  diffusion_functions : list (ThermalBlockDiffusionFunction T);
  diffusion_functionals : list ProjectionParameterFunctional;
  problem_name : string;
  parameter_space : CubicParameterSpace;
  parameter_range : T * T;
  num_blocks_of : Z * Z
}.

(** Python's [1 / n] under [from __future__ import division]. *)
Definition true_div_1 (n : Z) : result T :=
  if n =? 0 then raise ZeroDivisionError else ret (sdiv (of_Z 1) (of_Z n)).

(** [ThermalBlockProblem.__init__].  The two tuples are built by two
    separate generator expressions over the same [product]. *)
Definition ThermalBlockProblem_init {F} (num_blocks : Z * Z)
    (parameter_range : T * T) (rhs : F) : result (ThermalBlockProblem F) :=
  let parameter_space :=
    {| space_parameter_type := {[ "diffusion" := [snd num_blocks; fst num_blocks] ]};
       space_minimum := fst parameter_range;
       space_maximum := snd parameter_range |} in
  let* dx := true_div_1 (fst num_blocks) in
  let* dy := true_div_1 (snd num_blocks) in
  let diffusion_functions :=
    map (fun xy => mk_ThermalBlockDiffusionFunction (fst xy) (snd xy) dx dy)
        (product (xrange (fst num_blocks)) (xrange (snd num_blocks))) in
  let parameter_functionals :=
    map (fun xy => parameter_functional_factory num_blocks (fst xy) (snd xy))
        (product (xrange (fst num_blocks)) (xrange (snd num_blocks))) in
  ret {| domain := "RectDomain";
         rhs := rhs;
         diffusion_functions := diffusion_functions;
         diffusion_functionals := parameter_functionals;
         problem_name := "ThermalBlock";
         parameter_space := parameter_space;
         parameter_range := parameter_range;
         num_blocks_of := num_blocks |}.

End ThermalBlock.

Arguments domain {T F} _.
Arguments rhs {T F} _.
Arguments diffusion_functions {T F} _.
Arguments diffusion_functionals {T F} _.
Arguments problem_name {T F} _.
Arguments parameter_space {T F} _.
Arguments parameter_range {T F} _.
Arguments num_blocks_of {T F} _.

(** ** Parameter functionals and affine operators

    [ProjectionParameterFunctional.evaluate] and the assembly of an affine
    operator are implemented in modules of pyMOR that the demos only
    import. *)

(** Row-major offset of [coords] in an array of shape [s]; [None] when the
    number of coordinates differs from the number of axes or a coordinate
    is outside its axis. *)
Fixpoint ravel_index (s coords : list Z) (acc : Z) : option Z :=
  match s, coords with
  | [], [] => Some acc
  | n :: s', i :: coords' =>
      if (0 <=? i) && (i <? n) then ravel_index s' coords' (acc * n + i) else None
  | _, _ => None
  end.

Section AffineOperator.
Context {T : Type} `{Scalar T}.

(** Modelled from the spec: the projection functional's evaluation, absent
    from the sources ("selects/reads one scalar entry of one named
    component, given fixed coordinates"; "must fail with
    ParameterTypeMismatch if mu's component shapes do not match the
    parameter type the functionals were built against"). *)
Definition functional_evaluate (theta : ProjectionParameterFunctional)
    (mu : gmap string (ndarray T)) : result T :=
  match mu !! component_name theta with
  | None => raise ParameterTypeMismatch
  | Some a =>
      if decide (shape a = component_shape theta) then
        match ravel_index (shape a) (coordinates theta) 0 with
        | None => raise IndexError
        | Some k =>
            match data a !! Z.to_nat k with
            | Some v => ret v
            | None => raise IndexError
            end
        end
      else raise ParameterTypeMismatch
  end.

(** Modelled from the spec: the weights functional_k(mu) of an affine
    operator, in the order of the decomposition. *)
Fixpoint weights (functionals : list ProjectionParameterFunctional)
    (mu : gmap string (ndarray T)) : result (list T) :=
  match functionals with
  | [] => ret []
  | theta :: rest =>
      let* w := functional_evaluate theta mu in
      let* ws := weights rest mu in
      ret (w :: ws)
  end.

(** Operator components form a module over the scalars. *)
Context {C : Type} (czero : C) (cadd : C -> C -> C) (cscale : T -> C -> C).

(** Modelled from the spec: the weighted sum of the components, accumulated
    from the left ("the sequence order is fixed at construction and never
    reordered"). *)
Definition weighted_sum (ws : list T) (components : list C) : C :=
  fold_left (fun acc wc => cadd acc (cscale (fst wc) (snd wc))) (zip ws components) czero.

(** Modelled from the spec: [AffineOperator.assemble], absent from the
    sources ("assemble(mu) returns the sum over k of functional_k(mu) *
    component_k (+ constant)", failing with ParameterTypeMismatch as the
    functionals do). *)
Definition assemble (functionals : list ProjectionParameterFunctional)
    (components : list C) (constant : option C)
    (mu : gmap string (ndarray T)) : result C :=
  let* ws := weights functionals mu in
  ret match constant with
      | None => weighted_sum ws components
      | Some c => cadd (weighted_sum ws components) c
      end.

End AffineOperator.

(** ** Exact values of doubles, and the blocks as the specification words them *)


(** The block (x, y) of the nx-by-ny partition, in the words of the
    specification: x/nx <= p0 < (x+1)/nx and y/ny <= p1 < (y+1)/ny. *)
Definition in_block (nx ny x y : Z) (q : Q * Q) : bool :=
  Qle_bool (inject_Z x / inject_Z nx) (fst q)
  && negb (Qle_bool (inject_Z (x + 1) / inject_Z nx) (fst q))
  && Qle_bool (inject_Z y / inject_Z ny) (snd q)
  && negb (Qle_bool (inject_Z (y + 1) / inject_Z ny) (snd q)).

(** The diffusion function of block (x, y) of an nx-by-ny problem, as
    [ThermalBlockProblem.__init__] constructs it for non-zero nx and ny. *)
Definition block_function {T} `{Scalar T} (nx ny x y : Z) : ThermalBlockDiffusionFunction T :=
  mk_ThermalBlockDiffusionFunction x y (sdiv (of_Z 1) (of_Z nx)) (sdiv (of_Z 1) (of_Z ny)).

(** Modelled from the spec: the diffusion coefficient of the problem at a
    point, d(p, mu) = sum over the blocks of functional_k(mu) * function_k(p),
    the affine combination that [EllipticProblem] (absent from the sources)
    stands for. *)
Definition diffusion_at {T} `{Scalar T} (functionals : list ProjectionParameterFunctional)
    (functions : list (ThermalBlockDiffusionFunction T)) (p : T * T)
    (mu : gmap string (ndarray T)) : result T :=
  assemble (of_Z 0) sadd smul functionals
    (map (fun f => evaluate f p (Some mu)) functions) None mu.

(** ** thermalblock_gui.py: the command line, the spin boxes and the full model *)

(** The docopt arguments after the conversions of [RBGui.__init__]. *)
Record Args : Type := mk_Args {
  XBLOCKS : Z;
  YBLOCKS : Z;
  grid : Z;
  SNAPSHOTS : Z;
  RBSIZE : Z;
  estimator_norm : string
}.

Section Gui.
Context {T : Type} `{Scalar T}.

Definition PARAM_STEPS : Z := 10.
(** The literal 0.1: the scalar nearest to one tenth. *)
Definition PARAM_MIN : T := sdiv (of_Z 1) (of_Z 10).
Definition PARAM_MAX : T := of_Z 1.

(** [ParamRuler.__init__]: one spin box per pair (i, j), appended in the
    order of the two nested loops, each showing [PARAM_MIN].  A spin box is
    represented by its value. *)
Definition ParamRuler_init (args : Args) : list T :=
  flat_map (fun i => map (fun j => PARAM_MIN) (xrange (YBLOCKS args))) (xrange (XBLOCKS args)).

(** The parameter that [SimPanel.solve_update] builds from the spin boxes. *)
Definition solve_update_parameter (args : Args) (spins : list T)
    : result (gmap string (ndarray T)) :=
  let shape := [XBLOCKS args; YBLOCKS args] in
  let* a := reshape (np_array spins) shape in
  ret {[ "diffusion" := a ]}.


(** Operators live in a module over the scalars; the discretizer turns every
    diffusion function into an operator component and the linear solver
    turns an assembled operator into a solution.  Both are collaborators
    that the demo imports. *)
Context {C U : Type} (czero : C) (cadd : C -> C -> C) (cscale : T -> C -> C).
Context (discretize_component : ThermalBlockDiffusionFunction T -> C).
Context (linear_solve : C -> result U).

Record Discretization : Type := mk_Discretization {
  operator_functionals : list ProjectionParameterFunctional;
  operator_components : list C;
  discretization_parameter_space : CubicParameterSpace (T := T)
}.

(** Modelled from the spec: [discretize_elliptic_cg], absent from the
    sources; the full-order model "holds the assembled affine system
    operator", one component per diffusion function, weighted by the
    problem's functionals. *)
Definition discretize_elliptic_cg {F} (problem : ThermalBlockProblem (T := T) F) : Discretization :=
  {| operator_functionals := diffusion_functionals problem;
     operator_components := map discretize_component (diffusion_functions problem);
     discretization_parameter_space := parameter_space problem |}.


Record SimBase (F : Type) : Type := mk_SimBase {
  sim_args : Args;
  sim_first : bool;
  sim_problem : ThermalBlockProblem (T := T) F;
  sim_discretization : Discretization
}.
Arguments sim_args {F} _.
Arguments sim_first {F} _.
Arguments sim_problem {F} _.
Arguments sim_discretization {F} _.

(** [SimBase.__init__]; the grid diameter sqrt(2) / grid only matters to the
    discretizer, but its computation divides by [grid]. *)
Definition SimBase_init {F} (rhs : F) (args : Args) : result (SimBase F) :=
  let* problem := ThermalBlockProblem_init (XBLOCKS args, YBLOCKS args) (PARAM_MIN, PARAM_MAX) rhs in
  if grid args =? 0 then raise ZeroDivisionError
  else ret {| sim_args := args;
              sim_first := true;
              sim_problem := problem;
              sim_discretization := discretize_elliptic_cg problem |}.


End Gui.

Arguments sim_args {T C F} _.
Arguments sim_first {T C F} _.
Arguments sim_problem {T C F} _.
Arguments sim_discretization {T C F} _.

(** ** The greedy basis construction

    [greedy], the reductor, the error estimator and the basis extension are
    imported by [thermalblock_gui.py]. *)

(** What a run of the greedy loop does, iteration by iteration. *)
Inductive greedy_event (P : Type) : Type :=
  | EvRomSolve (mu : P)         (* ROM.solve(mu) *)
  | EvEstimate (mu : P)         (* ErrorEstimator.estimate(mu, .) *)
  | EvFomSolve (mu : P)         (* FullOrderModel.solve(mu) *)
  | EvExtend (accepted : bool)  (* BasisExtension.extend *)
  | EvProject.                  (* re-projection onto the new basis *)
Arguments EvRomSolve {P} _.
Arguments EvEstimate {P} _.
Arguments EvFomSolve {P} _.
Arguments EvExtend {P} _.
Arguments EvProject {P}.

(** Why the loop stopped. *)
Inductive stop : Type :=
  | MaxSizeReached
  | ToleranceReached
  | Stalled                     (* BasisExtensionStalled *)
  | Failed (e : exn).



Section Greedy.
Context {T : Type} `{Scalar T}.
Context {P Vec ROM RVec : Type}.
Context (fom_solve : P -> result Vec).
Context (orthonormalize : list Vec -> Vec -> option Vec).
Context (project : list Vec -> ROM).
Context (rom_solve : ROM -> P -> result RVec).
Context (estimate : ROM -> P -> RVec -> T).

Record greedy_state : Type := mk_greedy_state {
  basis : list Vec;
  rom : option ROM;
  history : list (P * option T);
  iterations : list (list (greedy_event P))
}.

(** Modelled from the spec: "current Basis (initially empty), current
    ROM/Reconstructor (initially undefined)". *)
Definition greedy_initial : greedy_state :=
  {| basis := []; rom := None; history := []; iterations := [] |}.

(** Modelled from the spec: [BasisExtension.extend], absent from the
    sources ("extend(basis, new_vector, product) -> (accepted, new_basis)";
    a numerically dependent vector is rejected and "the basis is returned
    unchanged", otherwise the basis "grows by exactly one vector").
    [orthonormalize] stands for the Gram-Schmidt step proper and answers
    [None] for a dependent vector. *)
Definition extend (b : list Vec) (u : Vec) : bool * list Vec :=
  match orthonormalize b u with
  | Some v => (true, b ++ [v])
  | None => (false, b)
  end.

(** Modelled from the spec: step 2 of the greedy loop, "for every training
    sample compute estimate(mu, ROM.solve(mu))"; a failing solve
    propagates. *)
Fixpoint estimate_all (r : ROM) (training : list P)
    : result (list (P * T)) * list (greedy_event P) :=
  match training with
  | [] => (ret [], [])
  | mu :: rest =>
      match rom_solve r mu with
      | inl e => (raise e, [EvRomSolve mu])
      | inr u =>
          let est := estimate r mu u in
          let '(res, evs) := estimate_all r rest in
          (let* ests := res in ret ((mu, est) :: ests),
           EvRomSolve mu :: EvEstimate mu :: evs)
      end
  end.

(** Modelled from the spec: the choice of step 2, "select the sample with
    the largest estimate (ties broken by earliest index in the training
    set)". *)
Fixpoint select_worst_from (best : P * T) (ests : list (P * T)) : P * T :=
  match ests with
  | [] => best
  | c :: rest => select_worst_from (if sltb (snd best) (snd c) then c else best) rest
  end.

(** Modelled from the spec: the worst of a list of estimates, if there is
    one. *)
Definition select_worst (ests : list (P * T)) : option (P * T) :=
  match ests with
  | [] => None
  | c :: rest => Some (select_worst_from c rest)
  end.

(** Modelled from the spec: steps 1 and 2 of the greedy loop, the sample to
    solve for and its estimate if one was computed ("if Basis is empty, skip
    estimation and go straight to step 3 with an arbitrary first training
    sample (commonly the first element)"). *)
Definition select (training : list P) (st : greedy_state)
    : result (P * option T) * list (greedy_event P) :=
  match basis st with
  | [] =>
      match training with
      | [] => (raise EmptyTrainingSet, [])
      | mu :: _ => (ret (mu, None), [])
      end
  | _ :: _ =>
      match rom st with
      | None => (raise (AttributeError "rom"), [])
      | Some r =>
          let '(res, evs) := estimate_all r training in
          (let* ests := res in
           match select_worst ests with
           | None => raise EmptyTrainingSet
           | Some (mu, e) => ret (mu, Some e)
           end, evs)
      end
  end.

(** Modelled from the spec: "(if tolerance configured) the maximum
    estimated error over the training set falls at or below tolerance". *)
Definition tolerance_reached (tolerance : option T) (err : option T) : bool :=
  match tolerance, err with
  | Some tol, Some e => sleb e tol
  | _, _ => false
  end.

(** The state with the events of one more iteration. *)
Definition record_iteration (st : greedy_state) (evs : list (greedy_event P)) : greedy_state :=
  {| basis := basis st; rom := rom st; history := history st;
     iterations := iterations st ++ [evs] |}.

(** Modelled from the spec: one pass through the greedy loop of section
    4.4 (terminal test, steps 1 to 5); [None] to go on, [Some s] when the
    loop is left. *)
Definition greedy_step (training : list P) (max_size : Z) (tolerance : option T)
    (st : greedy_state) : option stop * greedy_state :=
  if Z.of_nat (length (basis st)) =? max_size then (Some MaxSizeReached, st)
  else
    match select training st with
    | (inl e, evs) => (Some (Failed e), record_iteration st evs)
    | (inr (mu, err), evs) =>
        if tolerance_reached tolerance err
        then (Some ToleranceReached, record_iteration st evs)
        else
          match fom_solve mu with
          | inl e => (Some (Failed e), record_iteration st (evs ++ [EvFomSolve mu]))
          | inr u =>
              let '(accepted, new_basis) := extend (basis st) u in
              if accepted
              then (None,
                    {| basis := new_basis;
                       rom := Some (project new_basis);
                       history := history st ++ [(mu, err)];
                       iterations := iterations st
                         ++ [evs ++ [EvFomSolve mu; EvExtend true; EvProject]] |})
              else (Some Stalled,
                    record_iteration st (evs ++ [EvFomSolve mu; EvExtend false]))
          end
    end.

(** Modelled from the spec: the passes of the greedy loop, at most [fuel]
    of them. *)
Fixpoint greedy_loop (fuel : nat) (training : list P) (max_size : Z)
    (tolerance : option T) (st : greedy_state) : option (stop * greedy_state) :=
  match fuel with
  | O => None
  | S fuel' =>
      match greedy_step training max_size tolerance st with
      | (Some s, st') => Some (s, st')
      | (None, st') => greedy_loop fuel' training max_size tolerance st'
      end
  end.

(** Modelled from the spec: the greedy loop of section 4.4, absent from the
    sources.  State: "current Basis (initially empty), current
    ROM/Reconstructor (initially undefined), a fixed finite training set, an
    extension algorithm, a maximum basis size, and optional tolerance";
    "terminal when len(Basis) == max_size or (if tolerance configured) the
    maximum estimated error over the training set falls at or below
    tolerance"; "if Basis is empty, skip estimation and go straight to
    step 3 with an arbitrary first training sample (commonly the first
    element)"; "fails with EmptyTrainingSet if no samples given".  The
    result is [None] when [fuel] passes do not suffice. *)
Definition greedy (fuel : nat) (training : list P) (max_size : Z)
    (tolerance : option T) : option (stop * greedy_state) :=
  match training with
  | [] => Some (Failed EmptyTrainingSet, greedy_initial)
  | _ :: _ => greedy_loop fuel training max_size tolerance greedy_initial
  end.

(** The call of [ReducedSim._first]: the training set is
    [sample_uniformly(SNAPSHOTS)], [max_extensions] is RBSIZE, no target
    error is given. *)
Definition demo_greedy (sample_uniformly : Z -> list P) (fuel : nat) (args : Args)
    : option (stop * greedy_state) :=
  greedy fuel (sample_uniformly (SNAPSHOTS args)) (RBSIZE args) None.

End Greedy.

Arguments basis {T P Vec ROM} _.
Arguments rom {T P Vec ROM} _.
Arguments history {T P Vec ROM} _.
Arguments iterations {T P Vec ROM} _.







(** ** thermalblock_gui.py: the reduced model and its lazy construction *)

(** What a [ReducedSim] object does, in the order it does it. *)
Inductive sim_event (P : Type) : Type :=
  | BuildStarted              (* [greedy] is called *)
  | BuildCompleted            (* [greedy] has returned and [_first] has stored its result *)
  | RbSolve (mu : P)          (* [self.rb_discretization.solve(mu)] is called *)
  | Reconstructed.            (* [self.reconstructor.reconstruct] has been called *)
Arguments BuildStarted {P}.
Arguments BuildCompleted {P}.
Arguments RbSolve {P} _.
Arguments Reconstructed {P}.

Definition is_build_started {P} (ev : sim_event P) : bool :=
  match ev with BuildStarted => true | _ => false end.

Definition is_build_completed {P} (ev : sim_event P) : bool :=
  match ev with BuildCompleted => true | _ => false end.

Definition is_use {P} (ev : sim_event P) : bool :=
  match ev with RbSolve _ | Reconstructed => true | _ => false end.

Definition count_events {P} (p : sim_event P -> bool) (l : list (sim_event P)) : nat :=
  length (List.filter p l).

Section ReducedSim.
Context {P RD RC RVec U : Type}.
(** The outcome of the call [greedy(self.discretization, reductor, ...)]:
    the reduced discretization and the reconstructor, or the exception the
    call ends with.  The attributes it reads are assigned in [__init__]
    only, so every call has the same outcome. *)
Context (greedy_call : result (RD * RC)).
Context (rd_solve : RD -> P -> result RVec).
Context (reconstruct : RC -> RVec -> result U).

(** The attributes of a [ReducedSim] that change after [__init__]; [None]
    is an attribute that has not been assigned.  [events] is the log of
    what has happened to the object. *)
Record ReducedSim : Type := mk_ReducedSim {
  first : bool;
  rb_discretization : option RD;
  reconstructor : option RC;
  events : list (sim_event P)
}.

(** [ReducedSim.__init__], which only runs [SimBase.__init__]. *)
Definition ReducedSim_init : ReducedSim :=
  {| first := true; rb_discretization := None; reconstructor := None; events := [] |}.

Definition log (ev : sim_event P) (self : ReducedSim) : ReducedSim :=
  {| first := first self;
     rb_discretization := rb_discretization self;
     reconstructor := reconstructor self;
     events := events self ++ [ev] |}.

(** [ReducedSim._first]: the error product and the reductor it prepares
    are arguments of the call of [greedy]; the flag is cleared last. *)
Definition ReducedSim_first (self : ReducedSim) : result unit * ReducedSim :=
  let self := log BuildStarted self in
  match greedy_call with
  | inl e => (raise e, self)
  | inr (rd, rc) =>
      (ret tt,
       {| first := false;
          rb_discretization := Some rd;
          reconstructor := Some rc;
          events := events self ++ [BuildCompleted] |})
  end.

(** [ReducedSim.solve].  Python looks up [self.reconstructor] first, then
    evaluates the argument [self.rb_discretization.solve(mu)], then calls
    [reconstruct]. *)
Definition ReducedSim_solve (mu : P) (self : ReducedSim) : result U * ReducedSim :=
  let '(r, self) := if first self then ReducedSim_first self else (ret tt, self) in
  match r with
  | inl e => (raise e, self)
  | inr _ =>
      match reconstructor self with
      | None => (raise (AttributeError "reconstructor"), self)
      | Some rc =>
          match rb_discretization self with
          | None => (raise (AttributeError "rb_discretization"), self)
          | Some rd =>
              let self := log (RbSolve mu) self in
              match rd_solve rd mu with
              | inl e => (raise e, self)
              | inr u => (reconstruct rc u, log Reconstructed self)
              end
          end
      end
  end.

(** The calls of [solve] that the spin boxes trigger, one after the other;
    a call that raises leaves the object as it is at that point, and the
    next change of a spin box calls [solve] again. *)
Fixpoint ReducedSim_calls (mus : list P) (self : ReducedSim) : ReducedSim :=
  match mus with
  | [] => self
  | mu :: rest => ReducedSim_calls rest (snd (ReducedSim_solve mu self))
  end.

(** Unbuilt: nothing stored, and only attempts to build so far.  Built:
    both attributes stored, one completed build, preceded by build starts
    only and followed by uses only. *)
Definition sim_inv (self : ReducedSim) : Prop :=
  if first self
  then rb_discretization self = None /\ reconstructor self = None /\
       forallb is_build_started (events self) = true
  else exists rd rc pre post,
         rb_discretization self = Some rd /\ reconstructor self = Some rc /\
         events self = pre ++ BuildCompleted :: post /\
         forallb is_build_started pre = true /\ forallb is_use post = true.

End ReducedSim.

Arguments first {P RD RC} _.
Arguments rb_discretization {P RD RC} _.
Arguments reconstructor {P RD RC} _.
Arguments events {P RD RC} _.

(** ** cg_oned.py *)

Section CgOned.
Context {T : Type} `{Scalar T}.

(** The values bound to the local names of [cg_oned_demo] when [eval] runs:
    integers, and functions of the coordinate [X[..., 0]] wrapped in a
    [GenericFunction]. *)
Inductive pyval : Type :=
  | VInt (z : Z)
  | VFunction (f : T -> T).

(** A parameter functional is a projection or a generic function of the
    parameter, the latter with its parameter type. *)
Inductive Functional : Type :=
  | Projection (p : ProjectionParameterFunctional)
  | Generic (f : gmap string (ndarray T) -> T) (parameter_type : gmap string (list Z)).

Record EllipticProblem : Type := mk_EllipticProblem {
  elliptic_domain : string;
  elliptic_rhs : pyval;
  elliptic_diffusion_functions : list (T -> T);
  elliptic_diffusion_functionals : list Functional;
  elliptic_dirichlet_data : T;
  elliptic_name : string
}.

(** The literal 0.5. *)
Definition half : T := sdiv (of_Z 1) (of_Z 2).

(** [lambda X: np.ones(X.shape[:-1]) * 10] *)
Definition rhs0 (X : T) : T := smul (of_Z 1) (of_Z 10).

(** [lambda X: (X[..., 0] - 0.5) ** 2 * 1000]; numpy squares by
    multiplying. *)
Definition rhs1 (X : T) : T := smul (smul (ssub X half) (ssub X half)) (of_Z 1000).

(** [lambda X: 1 - X[..., 0]] and [lambda X: X[..., 0]] *)
Definition d0 (X : T) : T := ssub (of_Z 1) X.
Definition d1 (X : T) : T := X.

(** [eval(s)] for a string [s] that is a name: the value bound to it, or
    NameError.  The two strings that get past the assertion are names. *)
Definition eval (locals : list (string * pyval)) (s : string) : result pyval :=
  match List.find (fun b => String.eqb (fst b) s) locals with
  | Some b => ret (snd b)
  | None => raise (NameError s)
  end.

(** [cg_oned_demo], up to the construction of the problem; discretization,
    the solves and the plot that follow belong to other modules.  In
    [ProjectionParameterFunctional('diffusionl', 0)] the shape 0 stands for
    a scalar component. *)
Definition cg_oned_demo (nrhs n : Z) : result EllipticProblem :=
  if (0 <=? nrhs) && (nrhs <=? 1) then
    let* rhs := eval [("nrhs", VInt nrhs); ("n", VInt n);
                      ("rhs0", VFunction rhs0); ("rhs1", VFunction rhs1)]
                     ("rhs" +:+ pretty nrhs) in
    let f0 := Projection {| component_name := "diffusionl"; component_shape := [];
                            coordinates := []; name := None |} in
    let f1 := Generic (fun mu => of_Z 1) ∅ in
    ret {| elliptic_domain := "LineDomain";
           elliptic_rhs := rhs;
           elliptic_diffusion_functions := [d0; d1];
           elliptic_diffusion_functionals := [f0; f1];
           elliptic_dirichlet_data := of_Z 0;
           elliptic_name := "1DProblem" |}
  else raise (AssertionError (ValueError "Invalid rhs number.")).

End CgOned.

(** ** The order of doubles, and the block boundaries in binary64 *)

(** The place of a double in the order of the extended reals: the sign
    class first, then exponent and mantissa, both negated for a negative
    number; none for NaN, which compares with nothing. *)
Definition sf_key (f : spec_float) : option (Z * Z * Z) :=
  match f with
  | S754_nan => None
  | S754_zero _ => Some (0, 0, 0)
  | S754_infinity s => Some (if s then -2 else 2, 0, 0)
  | S754_finite s m e => Some (if s then (-1, - e, Z.neg m) else (1, e, Z.pos m))
  end.

Definition lex3 (a b : Z * Z * Z) : comparison :=
  match fst (fst a) ?= fst (fst b) with
  | Eq => match snd (fst a) ?= snd (fst b) with
          | Eq => snd a ?= snd b
          | c => c
          end
  | c => c
  end.







(** * Further parts of the three modules *)

From Stdlib Require Import Ascii.

(** ** numpy: indexing and reductions *)

(** [a[coords]] for a tuple of as many integers as the array has axes: a
    negative index counts from the end of its axis, an index outside
    [-n, n) raises IndexError.  The result is the row-major offset. *)
Fixpoint np_offset (s coords : list Z) (acc : Z) : option Z :=
  match s, coords with
  | [], [] => Some acc
  | n :: s', i :: coords' =>
      let i' := if i <? 0 then i + n else i in
      if (0 <=? i') && (i' <? n) then np_offset s' coords' (acc * n + i') else None
  | _, _ => None
  end.

Definition np_item {T} (a : ndarray T) (coords : list Z) : result T :=
  match np_offset (shape a) coords 0 with
  | None => raise IndexError
  | Some k =>
      match data a !! Z.to_nat k with
      | Some v => ret v
      | None => raise IndexError
      end
  end.

Section Reductions.
Context {T : Type} `{Scalar T}.

(** numpy's [minimum] and [maximum] of two numbers: the first one if it is
    NaN (the only number not below or equal to itself) or not beyond the
    second, else the second. *)
Definition np_minimum (a b : T) : T := if sleb a b || negb (sleb a a) then a else b.
Definition np_maximum (a b : T) : T := if sleb b a || negb (sleb a a) then a else b.

(** [np.min(U)] and [np.max(U)] of a one-dimensional array; an empty array
    has no minimum. *)
Definition np_min (U : list T) : result T :=
  match U with
  | [] => raise (ValueError "zero-size array to reduction operation minimum which has no identity")
  | u :: rest => ret (fold_left np_minimum rest u)
  end.

Definition np_max (U : list T) : result T :=
  match U with
  | [] => raise (ValueError "zero-size array to reduction operation maximum which has no identity")
  | u :: rest => ret (fold_left np_maximum rest u)
  end.

(** ** thermalblock_gui.py: [SolutionWidget] *)

(** The numeric part of [SolutionWidget.set]: [U] is shifted by its minimum
    and divided by its range, in place, and becomes [self.U].  (A division
    by zero is no error for numpy.)  The list returned is the new content
    of the array the caller passed. *)
Definition SolutionWidget_set (U : list T) : result (list T) :=
  let* vmin := np_min U in
  let* vmax := np_max U in
  let U1 := map (fun u => ssub u vmin) U in
  let d := ssub vmax vmin in
  ret (map (fun u => sdiv u d) U1).

(** [SolutionWidget.__init__], as far as [self.U] goes: the array of ones,
    one per vertex of the grid, passed through [set]. *)
Definition SolutionWidget_init (size : Z) : result (list T) :=
  if size <? 0 then raise (ValueError "negative dimensions are not allowed")
  else SolutionWidget_set (replicate (Z.to_nat size) (of_Z 1)).

(** [SolutionWidget.resizeGL], as far as [self.U] goes. *)
Definition SolutionWidget_resizeGL (U : list T) : result (list T) :=
  SolutionWidget_set U.

End Reductions.

(** ** thermalblock_gui.py: where the spin boxes sit *)

(** The grid cells [box.addWidget(spin, i, j)] of the spin boxes that
    [ParamRuler.__init__] creates, in the order of [self.spins]. *)
Definition ParamRuler_cells (args : Args) : list (Z * Z) :=
  flat_map (fun i => map (fun j => (i, j)) (xrange (YBLOCKS args))) (xrange (XBLOCKS args)).

(** ** thermalblock_gui.py: what a [ReducedSim] has stored *)

(** Unbuilt, or Built with what the call of [greedy] returned. *)
Definition stored_inv {P RD RC : Type} (greedy_call : result (RD * RC))
    (self : ReducedSim (P := P) (RD := RD) (RC := RC)) : Prop :=
  first self = true \/
  exists rd rc, first self = false /\ greedy_call = ret (rd, rc) /\
                rb_discretization self = Some rd /\ reconstructor self = Some rc.

(** ** cg_oned.py: the rest of [cg_oned_demo] *)

Section CgOnedRun.
Context {T : Type} `{Scalar T}.
(** The discretizer, the parameter space and the discretization are
    imported; they are taken as they come. *)
Context {D M V : Type}.
Context (discretize : EllipticProblem (T := T) -> T -> result D).
Context (parameter_type_str : D -> string).
Context (sample_uniformly : Z -> list M).
Context (solve : D -> M -> result V).
Context (visualize : D -> list V -> result unit).



End CgOnedRun.

(** ** Characters of a formatted name *)

Fixpoint no_underscore (s : string) : Prop :=
  match s with
  | EmptyString => True
  | String c s' => c <> "_"%char /\ no_underscore s'
  end.


(** * Properties of [thermalblock.py] *)

(** ** Enumeration order of [product] *)

Lemma product_cons {A B} (a : A) (l : list A) (k : list B) :
  product (a :: l) k = map (fun b => (a, b)) k ++ product l k.
Proof. reflexivity. Qed.

Lemma length_product {A B} (l : list A) (k : list B) :
  length (product l k) = (length l * length k)%nat.
Proof.
  induction l as [|a l IH]; [reflexivity|].
  rewrite product_cons, length_app, length_map, IH. simpl. lia.
Qed.

Lemma product_lookup {A B} (l : list A) (k : list B) (i j : nat) a b :
  l !! i = Some a -> k !! j = Some b ->
  product l k !! (i * length k + j)%nat = Some (a, b).
Proof.
  revert i. induction l as [|a' l IH]; intros i Hi Hj; [discriminate|].
  rewrite product_cons. destruct i as [|i]; simpl in Hi.
  - injection Hi as ->. rewrite lookup_app_l.
    + simpl. rewrite list_lookup_fmap, Hj. reflexivity.
    + rewrite length_map. simpl. eapply lookup_lt_Some; eassumption.
  - rewrite lookup_app_r; rewrite length_map; [|lia].
    replace (S i * length k + j - length k)%nat with (i * length k + j)%nat by lia.
    apply IH; assumption.
Qed.

Lemma xrange_lookup (n i : Z) :
  0 <= i < n -> xrange n !! Z.to_nat i = Some i.
Proof.
  intros Hi. unfold xrange. apply lookup_seqZ. split; lia.
Qed.

Lemma length_xrange (n : Z) : length (xrange n) = Z.to_nat n.
Proof. apply length_seqZ. Qed.

(** The pair at position [x * ny + y] of [product(xrange(nx), xrange(ny))]
    is [(x, y)]: the x index is the slow one. *)
Lemma blocks_lookup (nx ny x y : Z) :
  0 <= x < nx -> 0 <= y < ny ->
  product (xrange nx) (xrange ny) !! Z.to_nat (x * ny + y) = Some (x, y).
Proof.
  intros Hx Hy.
  replace (Z.to_nat (x * ny + y))
    with (Z.to_nat x * length (xrange ny) + Z.to_nat y)%nat
    by (rewrite length_xrange; nia).
  apply product_lookup; apply xrange_lookup; assumption.
Qed.

Lemma blocks_length (nx ny : Z) :
  0 <= nx -> 0 <= ny ->
  Z.of_nat (length (product (xrange nx) (xrange ny))) = nx * ny.
Proof.
  intros Hx Hy. rewrite length_product, !length_xrange. nia.
Qed.

Section ThermalBlockFacts.
Context {T : Type} `{Scalar T} {F : Type}.

Lemma init_success (nx ny : Z) (range : T * T) (f : F) :
  nx <> 0 -> ny <> 0 ->
  ThermalBlockProblem_init (nx, ny) range f =
  ret {| domain := "RectDomain";
         rhs := f;
         diffusion_functions :=
           map (fun xy => mk_ThermalBlockDiffusionFunction (fst xy) (snd xy)
                            (sdiv (of_Z 1) (of_Z nx)) (sdiv (of_Z 1) (of_Z ny)))
               (product (xrange nx) (xrange ny));
         diffusion_functionals :=
           map (fun xy => parameter_functional_factory (nx, ny) (fst xy) (snd xy))
               (product (xrange nx) (xrange ny));
         problem_name := "ThermalBlock";
         parameter_space :=
           {| space_parameter_type := {[ "diffusion" := [ny; nx] ]};
              space_minimum := fst range; space_maximum := snd range |};
         parameter_range := range;
         num_blocks_of := (nx, ny) |}.
Proof.
  intros Hx Hy. unfold ThermalBlockProblem_init, true_div_1. simpl.
  destruct (Z.eqb_spec nx 0) as [|_]; [contradiction|].
  destruct (Z.eqb_spec ny 0) as [|_]; [contradiction|].
  reflexivity.
Qed.

Lemma init_zero_x (ny : Z) (range : T * T) (f : F) :
  ThermalBlockProblem_init (0, ny) range f = raise ZeroDivisionError.
Proof. reflexivity. Qed.

End ThermalBlockFacts.

(** C1: in an nx-by-ny thermal block problem the functional built for the
    block with x-index i and y-index j (the entry at position i*ny + j of
    the functionals, where the diffusion function of block (i, j) sits as
    well) reads component 'diffusion' at coordinates (ny-1-j, i); for the
    2-by-2 problem the functional of block (x=1, y=0) reads (1, 1). *)
Theorem C1_functional_coordinates :
  (forall (T : Type) (S : Scalar T) (F : Type) (nx ny i j : Z) (range : T * T) (f : F),
      0 <= i < nx -> 0 <= j < ny ->
      exists pb theta d,
        ThermalBlockProblem_init (nx, ny) range f = ret pb /\
        diffusion_functions pb !! Z.to_nat (i * ny + j) = Some d /\
        tb_x d = i /\ tb_y d = j /\
        diffusion_functionals pb !! Z.to_nat (i * ny + j) = Some theta /\
        theta = parameter_functional_factory (nx, ny) i j /\
        component_name theta = "diffusion" /\
        coordinates theta = [ny - 1 - j; i]) /\
  coordinates (parameter_functional_factory (2, 2) 1 0) = [1; 1].
Proof.
  split; [|reflexivity].
  intros T S F nx ny i j range f Hi Hj.
  eexists _, _, _. split; [apply init_success; lia|]. simpl.
  rewrite !list_lookup_fmap, (blocks_lookup nx ny i j Hi Hj). simpl.
  repeat split. unfold parameter_functional_factory. simpl. f_equal. lia.
Qed.

Lemma C1_functional_coordinates_witness :
  exists pb theta d,
    ThermalBlockProblem_init (T := float) (F := unit) (2, 2) (0.5%float, 1%float) tt = ret pb /\
    diffusion_functions pb !! Z.to_nat (1 * 2 + 0) = Some d /\
    tb_x d = 1 /\ tb_y d = 0 /\
    diffusion_functionals pb !! Z.to_nat (1 * 2 + 0) = Some theta /\
    theta = parameter_functional_factory (2, 2) 1 0 /\
    component_name theta = "diffusion" /\
    coordinates theta = [2 - 1 - 0; 1].
Proof.
  apply (proj1 C1_functional_coordinates float _ unit 2 2 1 0); lia.
Defined.


(** ** The block functions *)

(** In binary64 the left-nested product of 1.0 with four truth values is
    1.0 when all four hold and 0.0 otherwise. *)
Lemma float_indicator (b1 b2 b3 b4 : bool) :
  smul (smul (smul (smul (of_Z 1) (of_bool b1)) (of_bool b2)) (of_bool b3)) (of_bool b4)
  = (if b1 && b2 && b3 && b4 then 1 else 0)%float.
Proof. destruct b1, b2, b3, b4; reflexivity. Qed.

Lemma Q_indicator (b1 b2 b3 b4 : bool) :
  smul (smul (smul (smul (of_Z 1) (of_bool b1)) (of_bool b2)) (of_bool b3)) (of_bool b4)
  = (if b1 && b2 && b3 && b4 then 1 else 0)%Q.
Proof. destruct b1, b2, b3, b4; reflexivity. Qed.


(** ** The blocks in exact arithmetic *)

(** In exact arithmetic the function of block (x, y) is the indicator of
    the block as the specification words it. *)
Lemma evaluate_exact (nx ny x y : Z) (q : Q * Q) (mu : option (gmap string (ndarray Q))) :
  evaluate (block_function nx ny x y) q mu = (if in_block nx ny x y q then 1 else 0)%Q.
Proof.
  unfold evaluate, block_function. cbn [tb_x tb_y tb_dx tb_dy].
  rewrite Q_indicator. unfold in_block. cbn [sleb sltb smul sdiv of_Z Q_scalar].
  assert (E : forall a b : Q, (a * (1 / b) == a / b)%Q).
  { intros a b. unfold Qdiv. ring. }
  rewrite !E. reflexivity.
Qed.



(** A point of a block determines the block: its indices are the integer
    parts of nx * p0 and ny * p1. *)
Lemma in_cell_iff (n x : Z) (q : Q) :
  0 < n ->
  Qle_bool (inject_Z x / inject_Z n) q && negb (Qle_bool (inject_Z (x + 1) / inject_Z n) q) = true
  <-> x = Qfloor (q * inject_Z n).
Proof.
  intros Hn.
  assert (Hn' : (0 < inject_Z n)%Q) by (unfold Qlt; simpl; lia).
  rewrite andb_true_iff, negb_true_iff, Qle_bool_iff, <- not_true_iff_false, Qle_bool_iff.
  assert (A : forall a : Q, (a / inject_Z n <= q <-> a <= q * inject_Z n)%Q).
  { intros a. split; intros Ha.
    - apply (Qmult_le_r _ _ (/ inject_Z n)); [apply Qinv_lt_0_compat; exact Hn'|].
      rewrite <- Qmult_assoc, Qmult_inv_r, Qmult_1_r by lra. exact Ha.
    - apply (Qmult_le_r _ _ (/ inject_Z n)) in Ha; [|apply Qinv_lt_0_compat; exact Hn'].
      rewrite <- Qmult_assoc, Qmult_inv_r, Qmult_1_r in Ha by lra. exact Ha. }
  rewrite !A.
  pose proof (Qfloor_le (q * inject_Z n)) as Hlo.
  pose proof (Qlt_floor (q * inject_Z n)) as Hhi.
  split.
  - intros [H1 H2]. apply Qnot_le_lt in H2.
    assert (x < Qfloor (q * inject_Z n) + 1).
    { rewrite Zlt_Qlt. eapply Qle_lt_trans; eassumption. }
    assert (Qfloor (q * inject_Z n) < x + 1).
    { rewrite Zlt_Qlt. eapply Qle_lt_trans; eassumption. }
    lia.
  - intros ->. split; [exact Hlo|]. apply Qlt_not_le. exact Hhi.
Qed.

Lemma in_block_iff (nx ny x y : Z) (q : Q * Q) :
  0 < nx -> 0 < ny ->
  in_block nx ny x y q = true
  <-> x = Qfloor (fst q * inject_Z nx) /\ y = Qfloor (snd q * inject_Z ny).
Proof.
  intros Hx Hy. unfold in_block.
  rewrite <- (in_cell_iff nx x (fst q) Hx), <- (in_cell_iff ny y (snd q) Hy).
  rewrite !andb_true_iff. tauto.
Qed.


(** Every entry of the block enumeration is a block of the partition, at
    the position its indices give. *)
Lemma blocks_lookup_inv (nx ny : Z) (k : nat) (x y : Z) :
  0 < nx -> 0 < ny ->
  product (xrange nx) (xrange ny) !! k = Some (x, y) ->
  0 <= x < nx /\ 0 <= y < ny /\ k = Z.to_nat (x * ny + y).
Proof.
  intros Hx Hy Hk.
  assert (Hlt : Z.of_nat k < nx * ny).
  { apply lookup_lt_Some in Hk. rewrite <- blocks_length by lia. lia. }
  pose proof (Z.div_mod (Z.of_nat k) ny ltac:(lia)) as Hdm.
  pose proof (Z.mod_pos_bound (Z.of_nat k) ny Hy) as Hr.
  assert (Hq : 0 <= Z.of_nat k / ny < nx).
  { split; [apply Z.div_pos; lia|apply Z.div_lt_upper_bound; lia]. }
  pose proof (blocks_lookup nx ny _ _ Hq Hr) as Hk'.
  revert Hdm Hr Hq Hk'.
  generalize (Z.of_nat k / ny) (Z.of_nat k mod ny). intros a b Hdm Hr Hq Hk'.
  replace (Z.to_nat (a * ny + b)) with k in Hk' by lia.
  rewrite Hk in Hk'. injection Hk' as -> ->.
  repeat split; lia.
Qed.




(** * The blocks in binary64 *)

(** ** The order of doubles *)

Lemma SFcompare_key (x y : spec_float) :
  SFcompare x y = match sf_key x, sf_key y with
                  | Some a, Some b => Some (lex3 a b)
                  | _, _ => None
                  end.
Proof.
  destruct x as [sx|sx| |sx mx ex], y as [sy|sy| |sy my ey]; simpl;
    try reflexivity;
    try (destruct sx; reflexivity); try (destruct sy; reflexivity);
    try (destruct sx, sy; reflexivity).
  destruct sx, sy; unfold lex3; simpl; try reflexivity.
  rewrite Z.compare_opp, (Z.compare_antisym ex ey). destruct (ex ?= ey); reflexivity.
Qed.

Lemma lex3_refl (a : Z * Z * Z) : lex3 a a = Eq.
Proof. unfold lex3. rewrite !Z.compare_refl. reflexivity. Qed.



Lemma float_leb_key (x y : float) :
  (x <=? y)%float = true <->
  exists a b, sf_key (Prim2SF x) = Some a /\ sf_key (Prim2SF y) = Some b /\ lex3 a b <> Gt.
Proof.
  rewrite FloatAxioms.leb_spec. unfold SFleb. rewrite SFcompare_key.
  destruct (sf_key (Prim2SF x)) as [a|], (sf_key (Prim2SF y)) as [b|];
    try (split; [discriminate|intros (? & ? & ? & ? & _); discriminate]).
  split.
  - intros Hc. exists a, b. repeat split. destruct (lex3 a b); discriminate.
  - intros (a' & b' & [= <-] & [= <-] & Hc). destruct (lex3 a b); congruence.
Qed.

Lemma float_ltb_key (x y : float) :
  (x <? y)%float = true <->
  exists a b, sf_key (Prim2SF x) = Some a /\ sf_key (Prim2SF y) = Some b /\ lex3 a b = Lt.
Proof.
  rewrite FloatAxioms.ltb_spec. unfold SFltb. rewrite SFcompare_key.
  destruct (sf_key (Prim2SF x)) as [a|], (sf_key (Prim2SF y)) as [b|];
    try (split; [discriminate|intros (? & ? & ? & ? & _); discriminate]).
  split.
  - intros Hc. exists a, b. repeat split. destruct (lex3 a b); discriminate || reflexivity.
  - intros (a' & b' & [= <-] & [= <-] & ->). reflexivity.
Qed.





(** ** Cells between non-decreasing boundaries *)

Section Cells.
Context (t : Z -> float) (n : Z).
Context (Hsorted : forall k, 0 <= k < n -> (t k <=? t (k + 1))%float = true).






End Cells.

(** ** The boundaries that binary64 computes *)



(** ** The partition in binary64 *)









(** In binary64 the outermost boundary nx * (1/nx) can fall below 1: for
    nx = 49 it is the largest double below 1, and that point of the half-open
    unit square lies in no block of the 49-by-1 problem. *)
Lemma binary64_gap_49 :
  exists pb,
    ThermalBlockProblem_init (49, 1) (0.5, 1)%float tt = ret pb /\
    (0x1.fffffffffffffp-1 <? 1)%float = true /\
    forallb (fun d => (evaluate d (0x1.fffffffffffffp-1, 0)%float None =? 0)%float)
            (diffusion_functions pb) = true.
Proof. eexists. split; [reflexivity|]. split; vm_compute; reflexivity. Qed.


(** ** Pairing of functions and functionals *)




(** ** Parameter independence *)

(** C9: a block function returns the same value whatever parameter it is
    given, and the diffusion coefficient assembled from the block functions
    depends on the parameter only through the weights the functionals
    compute: parameters with equal weights give equal coefficients. *)
Theorem C9_parameter_independence :
  forall (T : Type) (S : Scalar T),
    (forall (d : ThermalBlockDiffusionFunction T) (p : T * T)
            (mu1 mu2 : option (gmap string (ndarray T))),
        evaluate d p mu1 = evaluate d p mu2) /\
    (forall (functionals : list ProjectionParameterFunctional)
            (functions : list (ThermalBlockDiffusionFunction T)) (p : T * T)
            (mu1 mu2 : gmap string (ndarray T)),
        weights functionals mu1 = weights functionals mu2 ->
        diffusion_at functionals functions p mu1 = diffusion_at functionals functions p mu2).
Proof.
  intros T S. split; [reflexivity|].
  intros functionals functions p mu1 mu2 Hw.
  unfold diffusion_at, assemble. rewrite Hw. reflexivity.
Qed.

Lemma C9_parameter_independence_witness :
  let theta := [parameter_functional_factory (1, 1) 0 0] in
  let fs := [block_function (T := float) 1 1 0 0] in
  let mu1 : gmap string (ndarray float) := {[ "diffusion" := mk_ndarray [1; 1] [0.5%float] ]} in
  let mu2 : gmap string (ndarray float) :=
    <[ "unused" := mk_ndarray [1] [1%float] ]> mu1 in
  mu1 <> mu2 /\
  diffusion_at theta fs (0.5, 0.5)%float mu1 = diffusion_at theta fs (0.5, 0.5)%float mu2.
Proof.
  intros theta fs mu1 mu2. split.
  - intros E. apply (f_equal (fun m => m !! "unused")) in E. vm_compute in E. discriminate E.
  - apply (proj2 (C9_parameter_independence float _)). vm_compute. reflexivity.
Defined.


(** * The solve path of the GUI *)



Section GuiFacts.
Context {T : Type} `{Scalar T}.

Lemma reshape_spins (X Y : Z) (spins : list T) :
  0 <= X -> 0 <= Y -> Z.of_nat (length spins) = X * Y ->
  reshape (np_array spins) [X; Y] = ret (mk_ndarray [X; Y] spins).
Proof.
  intros HX HY Hlen. unfold reshape, np_array, size_of_shape. simpl.
  destruct (Z.leb_spec 0 X); [|lia]. destruct (Z.leb_spec 0 Y); [|lia]. simpl.
  destruct (Z.eqb_spec (X * (Y * 1)) (Z.of_nat (length spins))); [reflexivity|lia].
Qed.

Lemma solve_update_parameter_ok (args : Args) (spins : list T) :
  0 <= XBLOCKS args -> 0 <= YBLOCKS args ->
  Z.of_nat (length spins) = XBLOCKS args * YBLOCKS args ->
  solve_update_parameter args spins
  = ret {[ "diffusion" := mk_ndarray [XBLOCKS args; YBLOCKS args] spins ]}.
Proof.
  intros HX HY Hlen. unfold solve_update_parameter.
  rewrite reshape_spins by assumption. reflexivity.
Qed.

(** The spin boxes that [ParamRuler.__init__] creates are as many as the
    reshape of [solve_update] needs. *)
Lemma length_ParamRuler_init (args : Args) :
  0 <= XBLOCKS args -> 0 <= YBLOCKS args ->
  Z.of_nat (length (ParamRuler_init (T := T) args)) = XBLOCKS args * YBLOCKS args.
Proof.
  intros HX HY. unfold ParamRuler_init.
  rewrite <- (blocks_length (XBLOCKS args) (YBLOCKS args)) by assumption.
  unfold product. f_equal.
  induction (xrange (XBLOCKS args)) as [|i l IH]; simpl; [reflexivity|].
  rewrite !length_app, !length_map, IH. reflexivity.
Qed.


End GuiFacts.



(** With as many blocks in x as in y the declared and the built shape
    agree, and the functional of block (x, y) reads the spin box in row
    n-1-y and column x of the panel. *)
Lemma gui_parameter_square {T : Type} `{Scalar T} (n x y : Z) (spins : list T) :
  0 <= x < n -> 0 <= y < n -> Z.of_nat (length spins) = n * n ->
  exists v,
    functional_evaluate (parameter_functional_factory (n, n) x y)
                        {[ "diffusion" := mk_ndarray [n; n] spins ]} = ret v /\
    spins !! Z.to_nat ((n - y - 1) * n + x) = Some v.
Proof.
  intros Hx Hy Hlen. unfold functional_evaluate, parameter_functional_factory.
  cbn [component_name component_shape coordinates fst snd]. rewrite lookup_singleton_eq.
  cbn [shape data].
  destruct (decide ([n; n] = [n; n])) as [_|Hne]; [|contradiction].
  cbn [ravel_index].
  destruct (Z.leb_spec 0 (n - y - 1)); [|lia]. destruct (Z.ltb_spec (n - y - 1) n); [|lia].
  destruct (Z.leb_spec 0 x); [|lia]. destruct (Z.ltb_spec x n); [|lia].
  cbn [andb]. replace (0 * n + (n - y - 1)) with (n - y - 1) by lia.
  destruct (spins !! Z.to_nat ((n - y - 1) * n + x)) as [v|] eqn:E;
    [exists v; split; reflexivity|].
  apply lookup_ge_None in E. nia.
Qed.


(** * The greedy loop *)

Section GreedyFacts.
Context {T : Type} `{Scalar T}.
Context {P Vec ROM RVec : Type}.
Context (fom_solve : P -> result Vec).
Context (orthonormalize : list Vec -> Vec -> option Vec).
Context (project : list Vec -> ROM).
Context (rom_solve : ROM -> P -> result RVec).
Context (estimate : ROM -> P -> RVec -> T).
Context (training : list P) (max_size : Z) (tolerance : option T).

Local Abbreviation step := (greedy_step fom_solve orthonormalize project rom_solve estimate
                    training max_size tolerance).
Local Abbreviation loop := (fun fuel => greedy_loop fom_solve orthonormalize project rom_solve estimate
                    fuel training max_size tolerance).
Local Abbreviation state := (greedy_state (T := T) (P := P) (Vec := Vec) (ROM := ROM)).

Lemma extend_accepted (b b' : list Vec) (u : Vec) :
  extend orthonormalize b u = (true, b') -> exists v, b' = b ++ [v].
Proof.
  unfold extend. destruct (orthonormalize b u) as [v|]; intros E; [|discriminate].
  injection E as <-. eauto.
Qed.

Lemma extend_rejected (b b' : list Vec) (u : Vec) :
  extend orthonormalize b u = (false, b') -> b' = b.
Proof.
  unfold extend. destruct (orthonormalize b u) as [v|]; intros E; [discriminate|].
  injection E as <-. reflexivity.
Qed.

(** A pass that goes on has accepted one more vector; a pass that leaves
    the loop keeps the basis. *)
Lemma step_continue (st st' : state) :
  step st = (None, st') ->
  Z.of_nat (length (basis st)) <> max_size /\
  exists v, basis st' = basis st ++ [v].
Proof.
  unfold greedy_step.
  destruct (Z.eqb_spec (Z.of_nat (length (basis st))) max_size) as [|Hne]; [discriminate|].
  destruct (select _ _ _ _) as [[e|[mu err]] evs]; [discriminate|].
  destruct (tolerance_reached _ _); [discriminate|].
  destruct (fom_solve mu) as [e|u]; [discriminate|].
  destruct (extend _ _ _) as [[|] b'] eqn:E; [|discriminate].
  intros [= <-]. split; [exact Hne|]. exact (extend_accepted _ _ _ E).
Qed.

Lemma step_stop (st st' : state) (s : stop) :
  step st = (Some s, st') ->
  basis st' = basis st /\
  (s = MaxSizeReached -> Z.of_nat (length (basis st)) = max_size) /\
  (s = ToleranceReached -> exists tol, tolerance = Some tol).
Proof.
  unfold greedy_step.
  destruct (Z.eqb_spec (Z.of_nat (length (basis st))) max_size) as [Heq|Hne].
  { intros [= <- <-]. split; [reflexivity|]. split; [intros _; exact Heq|discriminate]. }
  destruct (select _ _ _ _) as [[e|[mu err]] evs].
  { intros [= <- <-]. split; [reflexivity|]. split; discriminate. }
  destruct (tolerance_reached _ _) eqn:Htol.
  { intros [= <- <-]. split; [reflexivity|]. split; [discriminate|].
    intros _. unfold tolerance_reached in Htol.
    destruct tolerance as [tol|]; [eauto|discriminate]. }
  destruct (fom_solve mu) as [e|u].
  { intros [= <- <-]. split; [reflexivity|]. split; discriminate. }
  destruct (extend _ _ _) as [[|] b'] eqn:E; [discriminate|].
  intros [= <- <-]. split; [reflexivity|]. split; discriminate.
Qed.

(** Induction over the passes of the loop. *)
Lemma greedy_loop_rule (I : state -> Prop) (R : stop -> state -> Prop) :
  (forall st st', I st -> step st = (None, st') -> I st') ->
  (forall st s st', I st -> step st = (Some s, st') -> R s st') ->
  forall fuel st s st', I st -> loop fuel st = Some (s, st') -> R s st'.
Proof.
  intros Hgo Hstop. induction fuel as [|fuel IH]; intros st s st' HI Hrun; [discriminate|].
  simpl in Hrun. destruct (step st) as [[s0|] st0] eqn:E.
  - injection Hrun as <- <-. eapply Hstop; eassumption.
  - eapply IH; [|exact Hrun]. eapply Hgo; eassumption.
Qed.

(** With [n] vectors missing, [n + 1] passes suffice. *)
Lemma greedy_loop_terminates (n : nat) :
  forall (fuel : nat) (st : state),
    Z.of_nat (length (basis st)) + Z.of_nat n = max_size ->
    (n < fuel)%nat ->
    exists s st', loop fuel st = Some (s, st').
Proof.
  induction n as [|n IH]; intros fuel st Hn Hfuel.
  - destruct fuel as [|fuel]; [lia|]. simpl.
    destruct (step st) as [[s|] st'] eqn:E; [eauto|].
    apply step_continue in E as [Hne _]. lia.
  - destruct fuel as [|fuel]; [lia|]. simpl.
    destruct (step st) as [[s|] st'] eqn:E; [eauto|].
    apply step_continue in E as [_ [v Hv]].
    apply IH; [|lia]. rewrite Hv, length_app. simpl. lia.
Qed.

(** More passes than needed change nothing. *)
Lemma greedy_loop_fuel (fuel fuel' : nat) (st : state) r :
  loop fuel st = Some r -> (fuel <= fuel')%nat -> loop fuel' st = Some r.
Proof.
  revert fuel' st. induction fuel as [|fuel IH]; intros fuel' st Hrun Hle; [discriminate|].
  destruct fuel' as [|fuel']; [lia|]. simpl in *.
  destruct (step st) as [[s|] st0]; [exact Hrun|]. apply IH; [exact Hrun|lia].
Qed.

Lemma greedy_loop_bound :
  forall fuel (st : state) s st',
    Z.of_nat (length (basis st)) <= max_size ->
    loop fuel st = Some (s, st') ->
    Z.of_nat (length (basis st')) <= max_size /\
    (s = MaxSizeReached -> Z.of_nat (length (basis st')) = max_size) /\
    (s = ToleranceReached -> exists tol, tolerance = Some tol).
Proof.
  apply (greedy_loop_rule (fun st => Z.of_nat (length (basis st)) <= max_size)).
  - intros st st' HI E. apply step_continue in E as [Hne [v ->]].
    rewrite length_app. simpl. lia.
  - intros st s st' HI E. apply step_stop in E as (-> & Hmax & Htol). auto.
Qed.



End GreedyFacts.

(** The estimate selected is a largest one, and the first of the largest
    ones (in exact arithmetic). *)
Lemma select_worst_from_max {P : Type} (ests : list (P * Q)) :
  forall best : P * Q,
    (snd best <= snd (select_worst_from best ests))%Q /\
    (forall c, In c ests -> snd c <= snd (select_worst_from best ests))%Q /\
    (select_worst_from best ests = best \/
     exists pre post, ests = pre ++ select_worst_from best ests :: post /\
       (snd best < snd (select_worst_from best ests))%Q /\
       forall c, In c pre -> (snd c < snd (select_worst_from best ests))%Q).
Proof.
  induction ests as [|c ests IH]; intros best; simpl.
  { split; [apply Qle_refl|]. split; [contradiction|]. left. reflexivity. }
  destruct (Qle_bool (snd c) (snd best)) eqn:E; simpl.
  - apply Qle_bool_iff in E.
    destruct (IH best) as (Hb & Hall & Hpos).
    split; [exact Hb|]. split.
    { intros c' [<-|Hin]; [eapply Qle_trans; eassumption|auto]. }
    destruct Hpos as [Heq|(pre & post & Hests & Hlt & Hpre)]; [left; exact Heq|].
    right. exists (c :: pre), post. split; [simpl; congruence|]. split; [exact Hlt|].
    intros c' [<-|Hin]; [eapply Qle_lt_trans; eassumption|auto].
  - assert (Hlt : (snd best < snd c)%Q).
    { apply Qnot_le_lt. intros Hle. apply Qle_bool_iff in Hle. congruence. }
    destruct (IH c) as (Hb & Hall & Hpos).
    split; [apply Qlt_le_weak; eapply Qlt_le_trans; eassumption|]. split.
    { intros c' [<-|Hin]; [exact Hb|auto]. }
    right. destruct Hpos as [Heq|(pre & post & Hests & Hlt' & Hpre)].
    + exists [], ests. rewrite Heq. split; [reflexivity|]. split; [exact Hlt|contradiction].
    + exists (c :: pre), post. split; [simpl; congruence|].
      split; [eapply Qlt_trans; eassumption|].
      intros c' [<-|Hin]; [exact Hlt'|auto].
Qed.





(** Without training samples the run fails at once. *)
Lemma greedy_no_samples {T : Type} `{Scalar T} {P Vec ROM RVec : Type}
    (fom_solve : P -> result Vec) (orthonormalize : list Vec -> Vec -> option Vec)
    (project : list Vec -> ROM) (rom_solve : ROM -> P -> result RVec)
    (estimate : ROM -> P -> RVec -> T) (fuel : nat) (max_size : Z) (tolerance : option T) :
  greedy fom_solve orthonormalize project rom_solve estimate fuel [] max_size tolerance
  = Some (Failed EmptyTrainingSet, greedy_initial).
Proof. reflexivity. Qed.

(** The run of the demo: for RBSIZE >= 0 it ends, with exactly RBSIZE basis
    vectors unless it fails. *)
Lemma demo_greedy_size {T : Type} `{Scalar T} {P Vec ROM RVec : Type}
    (fom_solve : P -> result Vec) (orthonormalize : list Vec -> Vec -> option Vec)
    (project : list Vec -> ROM) (rom_solve : ROM -> P -> result RVec)
    (estimate : ROM -> P -> RVec -> T) (sample_uniformly : Z -> list P)
    (fuel : nat) (args : Args) :
  0 <= RBSIZE args -> (Z.to_nat (RBSIZE args) < fuel)%nat ->
  exists s st,
    demo_greedy fom_solve orthonormalize project rom_solve estimate
                sample_uniformly fuel args = Some (s, st) /\
    (s = MaxSizeReached /\ Z.of_nat (length (basis st)) = RBSIZE args \/
     s = Stalled \/ exists e, s = Failed e).
Proof.
  intros Hmax Hfuel. unfold demo_greedy, greedy.
  destruct (sample_uniformly (SNAPSHOTS args)) as [|mu0 rest] eqn:Htr.
  { eexists _, _. split; [reflexivity|]. right. right. eauto. }
  rewrite <- Htr.
  destruct (greedy_loop_terminates fom_solve orthonormalize project rom_solve estimate
              (sample_uniformly (SNAPSHOTS args)) (RBSIZE args) None
              (Z.to_nat (RBSIZE args)) fuel greedy_initial)
    as (s & st & Hrun); [simpl; lia|exact Hfuel|].
  exists s, st. split; [exact Hrun|].
  destruct (greedy_loop_bound fom_solve orthonormalize project rom_solve estimate
              (sample_uniformly (SNAPSHOTS args)) (RBSIZE args) None fuel greedy_initial s st
              ltac:(simpl; lia) Hrun) as (_ & Hmaxed & Htol).
  destruct s as [| | |e]; eauto.
  destruct (Htol eq_refl) as [tol Htol']. discriminate Htol'.
Qed.


(** ** What a run of the greedy loop does *)






Section GreedyTrace.
Context {T : Type} `{Scalar T}.
Context {P Vec ROM RVec : Type}.
Context (fom_solve : P -> result Vec).
Context (orthonormalize : list Vec -> Vec -> option Vec).
Context (project : list Vec -> ROM).
Context (rom_solve : ROM -> P -> result RVec).
Context (estimate : ROM -> P -> RVec -> T).
Context (training : list P) (max_size : Z) (tolerance : option T).

Local Abbreviation step := (greedy_step fom_solve orthonormalize project rom_solve estimate
                    training max_size tolerance).
Local Abbreviation loop := (fun fuel => greedy_loop fom_solve orthonormalize project rom_solve estimate
                    fuel training max_size tolerance).
Local Abbreviation state := (greedy_state (T := T) (P := P) (Vec := Vec) (ROM := ROM)).




End GreedyTrace.




Section GreedyRun.
Context {T : Type} `{Scalar T}.
Context {P Vec ROM RVec : Type}.
Context (fom_solve : P -> result Vec).
Context (orthonormalize : list Vec -> Vec -> option Vec).
Context (project : list Vec -> ROM).
Context (rom_solve : ROM -> P -> result RVec).
Context (estimate : ROM -> P -> RVec -> T).
Context (training : list P) (max_size : Z) (tolerance : option T).




End GreedyRun.





(** * The lifecycle of the reduced model *)

Section ReducedSimFacts.
Context {P RD RC RVec U : Type}.
Context (greedy_call : result (RD * RC)).
Context (rd_solve : RD -> P -> result RVec).
Context (reconstruct : RC -> RVec -> result U).

Local Abbreviation solve := (ReducedSim_solve greedy_call rd_solve reconstruct).
Local Abbreviation calls := (ReducedSim_calls greedy_call rd_solve reconstruct).
Local Abbreviation sim := (ReducedSim (P := P) (RD := RD) (RC := RC)).

Lemma forallb_snoc {A} (p : A -> bool) (l : list A) (a : A) :
  forallb p (l ++ [a]) = forallb p l && p a.
Proof. rewrite forallb_app. simpl. rewrite andb_true_r. reflexivity. Qed.

Lemma solve_inv (mu : P) (self : sim) :
  sim_inv self -> sim_inv (snd (solve mu self)).
Proof.
  unfold sim_inv, ReducedSim_solve, ReducedSim_first.
  destruct (first self) eqn:Hf.
  - intros (Hrd & Hrc & Hev). destruct greedy_call as [e|[rd rc]]; simpl.
    + rewrite Hf. simpl. rewrite forallb_snoc, Hev. repeat split; assumption.
    + destruct (rd_solve rd mu) as [e|u]; simpl.
      * exists rd, rc, (events self ++ [BuildStarted]), [RbSolve mu].
        rewrite forallb_snoc, Hev, <- !app_assoc. repeat split.
      * exists rd, rc, (events self ++ [BuildStarted]), [RbSolve mu; Reconstructed].
        rewrite forallb_snoc, Hev, <- !app_assoc. repeat split.
  - intros (rd & rc & pre & post & Hrd & Hrc & Hev & Hpre & Hpost). rewrite Hrc, Hrd.
    destruct (rd_solve rd mu) as [e|u]; simpl; rewrite Hf.
    + exists rd, rc, pre, (post ++ [RbSolve mu]).
      rewrite Hev, forallb_snoc, Hpost, <- app_assoc. repeat split; assumption.
    + exists rd, rc, pre, (post ++ [RbSolve mu; Reconstructed]).
      rewrite Hev, forallb_app, Hpost. repeat split; try assumption.
      rewrite <- !app_assoc. reflexivity.
Qed.

Lemma calls_inv (mus : list P) :
  forall self : sim, sim_inv self -> sim_inv (calls mus self).
Proof.
  induction mus as [|mu mus IH]; intros self Hinv; simpl; [exact Hinv|].
  apply IH, solve_inv, Hinv.
Qed.

Lemma init_inv : sim_inv (ReducedSim_init (P := P) (RD := RD) (RC := RC)).
Proof. simpl. repeat split. Qed.

End ReducedSimFacts.

Lemma forallb_lookup {A} (p : A -> bool) (l : list A) (i : nat) (a : A) :
  forallb p l = true -> l !! i = Some a -> p a = true.
Proof.
  intros Hall Hi. apply list_elem_of_lookup_2, list_elem_of_In in Hi.
  exact (proj1 (forallb_forall p l) Hall a Hi).
Qed.

Lemma count_events_app {P} (p : sim_event P -> bool) (l k : list (sim_event P)) :
  count_events p (l ++ k) = (count_events p l + count_events p k)%nat.
Proof. unfold count_events. rewrite List.filter_app, length_app. reflexivity. Qed.

Lemma count_events_none {P} (p q : sim_event P -> bool) (l : list (sim_event P)) :
  (forall ev, q ev = true -> p ev = false) ->
  forallb q l = true -> count_events p l = 0%nat.
Proof.
  intros Hpq. induction l as [|ev l IH]; simpl; [reflexivity|].
  intros [Hq Hl]%andb_true_iff. unfold count_events in *. simpl.
  rewrite (Hpq ev Hq). exact (IH Hl).
Qed.

(** What the invariant says about the log. *)
Lemma sim_inv_facts {P RD RC : Type} (self : ReducedSim (P := P) (RD := RD) (RC := RC)) :
  sim_inv self ->
  (forall i mu, events self !! i = Some (RbSolve mu) ->
     exists j, (j < i)%nat /\ events self !! j = Some BuildCompleted) /\
  (count_events is_build_completed (events self) <= 1)%nat /\
  (forall i j, events self !! j = Some BuildCompleted ->
               events self !! i = Some BuildStarted -> (i < j)%nat) /\
  (first self = false <-> count_events is_build_completed (events self) = 1%nat) /\
  (first self = false ->
     exists rd rc, rb_discretization self = Some rd /\ reconstructor self = Some rc).
Proof.
  unfold sim_inv. destruct (first self).
  - intros (Hrd & Hrc & Hev).
    assert (Hc : count_events is_build_completed (events self) = 0%nat).
    { apply (count_events_none _ is_build_started); [|exact Hev]. intros []; discriminate || reflexivity. }
    split; [|split; [|split; [|split]]].
    + intros i mu Hi. pose proof (forallb_lookup _ _ _ _ Hev Hi). discriminate.
    + lia.
    + intros i j Hj _. pose proof (forallb_lookup _ _ _ _ Hev Hj). discriminate.
    + rewrite Hc. split; discriminate.
    + discriminate.
  - intros (rd & rc & pre & post & Hrd & Hrc & Hev & Hpre & Hpost).
    assert (Hc : count_events is_build_completed (events self) = 1%nat).
    { rewrite Hev, count_events_app.
      rewrite (count_events_none _ is_build_started pre) by (assumption || intros []; discriminate || reflexivity).
      change (BuildCompleted :: post) with ([BuildCompleted] ++ post).
      rewrite count_events_app.
      rewrite (count_events_none _ is_use post) by (assumption || intros []; discriminate || reflexivity).
      reflexivity. }
    rewrite Hev in *.
    split; [|split; [|split; [|split]]].
    + intros i mu Hi. exists (length pre). split.
      * apply lookup_app_Some in Hi as [Hi|[Hge Hi]].
        { pose proof (forallb_lookup _ _ _ _ Hpre Hi). discriminate. }
        destruct (i - length pre)%nat as [|k] eqn:E; [discriminate Hi|lia].
      * rewrite lookup_app_r, Nat.sub_diag by lia. reflexivity.
    + lia.
    + intros i j Hj Hi.
      apply lookup_app_Some in Hi as [Hi|[Hge Hi]].
      * apply lookup_lt_Some in Hi.
        apply lookup_app_Some in Hj as [Hj|[Hge Hj]]; [|lia].
        pose proof (forallb_lookup _ _ _ _ Hpre Hj). discriminate.
      * destruct (i - length pre)%nat as [|k] eqn:E; [discriminate Hi|].
        simpl in Hi. pose proof (forallb_lookup _ _ _ _ Hpost Hi). discriminate.
    + split; auto.
    + eauto.
Qed.

(** C8 (as amended): after any sequence of calls of [ReducedSim.solve],
    every call of [rb_discretization.solve] in the log comes after a
    completed build; the build has completed at most once, and every start
    of a build precedes that completion, so a completed build is never run
    again; the object is Built (flag cleared, both attributes stored)
    exactly when a build has completed.  A build that raises leaves the
    object Unbuilt, and the next call starts it again. *)
Theorem C8_lifecycle :
  forall (P RD RC RVec U : Type) (greedy_call : result (RD * RC))
         (rd_solve : RD -> P -> result RVec) (reconstruct : RC -> RVec -> result U)
         (mus : list P),
    let self := ReducedSim_calls greedy_call rd_solve reconstruct mus ReducedSim_init in
    (forall i mu, events self !! i = Some (RbSolve mu) ->
       exists j, (j < i)%nat /\ events self !! j = Some BuildCompleted) /\
    (count_events is_build_completed (events self) <= 1)%nat /\
    (forall i j, events self !! j = Some BuildCompleted ->
                 events self !! i = Some BuildStarted -> (i < j)%nat) /\
    (first self = false <-> count_events is_build_completed (events self) = 1%nat) /\
    (first self = false ->
       exists rd rc, rb_discretization self = Some rd /\ reconstructor self = Some rc) /\
    (forall e, greedy_call = raise e ->
       first self = true /\ events self = repeat BuildStarted (length mus)).
Proof.
  intros P RD RC RVec U greedy_call rd_solve reconstruct mus self.
  pose proof (sim_inv_facts self
                (calls_inv greedy_call rd_solve reconstruct mus _ init_inv))
    as (F1 & F2 & F3 & F4 & F5).
  repeat (split; [assumption|]).
  intros e He. subst self. clear F1 F2 F3 F4 F5.
  assert (Hgen : forall (s : ReducedSim (P := P) (RD := RD) (RC := RC)),
            first s = true ->
            first (ReducedSim_calls greedy_call rd_solve reconstruct mus s) = true /\
            events (ReducedSim_calls greedy_call rd_solve reconstruct mus s)
            = events s ++ repeat BuildStarted (length mus)).
  { induction mus as [|mu mus IH]; intros s Hs; simpl.
    - rewrite app_nil_r. auto.
    - assert (Hfail : ReducedSim_solve greedy_call rd_solve reconstruct mu s
                      = (raise e, log BuildStarted s)).
      { unfold ReducedSim_solve, ReducedSim_first. rewrite Hs, He. reflexivity. }
      rewrite Hfail. cbn [snd].
      destruct (IH (log BuildStarted s) Hs) as [E1 E2].
      split; [exact E1|]. rewrite E2. cbn [events log].
      rewrite <- app_assoc. reflexivity. }
  destruct (Hgen ReducedSim_init eq_refl) as [E1 E2]. split; [exact E1|exact E2].
Qed.

(** C8, counterexample: when the call of [greedy] raises (as it does for an
    empty training set) the flag stays set, and a second call of [solve]
    runs the build a second time. *)
Lemma C8_counterexample :
  ~ (forall (P RD RC RVec U : Type) (greedy_call : result (RD * RC))
            (rd_solve : RD -> P -> result RVec) (reconstruct : RC -> RVec -> result U)
            (mus : list P),
       (count_events is_build_started
          (events (ReducedSim_calls greedy_call rd_solve reconstruct mus ReducedSim_init))
        <= 1)%nat).
Proof.
  intros Hclaim.
  specialize (Hclaim Z unit unit unit unit (raise EmptyTrainingSet)
                (fun _ _ => ret tt) (fun _ _ => ret tt) [1; 2]).
  vm_compute in Hclaim. lia.
Qed.

Lemma C8_lifecycle_witness :
  let self := ReducedSim_calls (P := Z) (U := unit) (ret (tt, tt))
                (fun _ _ => ret tt) (fun _ _ => ret tt) [1; 2] ReducedSim_init in
  events self = [BuildStarted; BuildCompleted; RbSolve 1; Reconstructed; RbSolve 2; Reconstructed] /\
  (forall i mu, events self !! i = Some (RbSolve mu) ->
     exists j, (j < i)%nat /\ events self !! j = Some BuildCompleted) /\
  (count_events is_build_completed (events self) <= 1)%nat.
Proof.
  intros self. split; [reflexivity|].
  pose proof (C8_lifecycle Z unit unit unit unit (ret (tt, tt))
                (fun _ _ => ret tt) (fun _ _ => ret tt) [1; 2]) as (F1 & F2 & _).
  split; [exact F1|exact F2].
Defined.


(** * cg_oned.py *)

(** Multiplication of doubles commutes. *)
Lemma SF64mul_comm (x y : spec_float) : SF64mul x y = SF64mul y x.
Proof.
  unfold SF64mul, SFmul.
  destruct x as [sx|sx| |sx mx ex], y as [sy|sy| |sy my ey];
    try reflexivity; rewrite ?(xorb_comm sx sy); try reflexivity.
  rewrite (Pos.mul_comm mx my), (Z.add_comm ex ey). reflexivity.
Qed.

Lemma float_mul_comm (x y : float) : (x * y = y * x)%float.
Proof.
  rewrite <- (SF2Prim_Prim2SF (x * y)), <- (SF2Prim_Prim2SF (y * x)).
  rewrite !FloatAxioms.mul_spec, SF64mul_comm. reflexivity.
Qed.

Lemma Q_mul_comm (x y : Q) : Qmult x y = Qmult y x.
Proof. unfold Qmult. rewrite (Z.mul_comm (Qnum x)), (Pos.mul_comm (Qden x)). reflexivity. Qed.

Section CgOnedFacts.
Context {T : Type} `{Scalar T}.

Lemma cg_oned_demo_invalid (nrhs n : Z) :
  ~ (0 <= nrhs <= 1) ->
  cg_oned_demo nrhs n = raise (AssertionError (ValueError "Invalid rhs number.")).
Proof.
  intros Hout. unfold cg_oned_demo.
  destruct (Z.leb_spec 0 nrhs), (Z.leb_spec nrhs 1); simpl; try reflexivity. lia.
Qed.

Lemma cg_oned_demo_0 (n : Z) :
  exists pb, cg_oned_demo 0 n = ret pb /\ elliptic_rhs pb = VFunction rhs0.
Proof. eexists. split; reflexivity. Qed.

Lemma cg_oned_demo_1 (n : Z) :
  exists pb, cg_oned_demo 1 n = ret pb /\ elliptic_rhs pb = VFunction rhs1.
Proof. eexists. split; reflexivity. Qed.

End CgOnedFacts.

(** C10: [cg_oned_demo(nrhs, n)] raises AssertionError, not ValueError (the
    ValueError instance is only the argument of the assertion), for every
    integer nrhs outside 0 <= nrhs <= 1; for nrhs = 0 the assertion passes
    and the right-hand side of the problem is the constant function 10, for
    nrhs = 1 it is the function mapping X to 1000 * (X0 - 0.5)^2. *)
Theorem C10_cg_oned_rhs :
  (forall nrhs n : Z,
     ~ (0 <= nrhs <= 1) ->
     cg_oned_demo (T := float) nrhs n = raise (AssertionError (ValueError "Invalid rhs number.")) /\
     forall msg, cg_oned_demo (T := float) nrhs n <> raise (ValueError msg)) /\
  (forall n : Z, exists pb f,
     cg_oned_demo (T := float) 0 n = ret pb /\ elliptic_rhs pb = VFunction f /\
     forall X : float, f X = 10%float) /\
  (forall n : Z, exists pb f,
     cg_oned_demo (T := float) 1 n = ret pb /\ elliptic_rhs pb = VFunction f /\
     forall X : float, f X = (1000 * ((X - 0.5) * (X - 0.5)))%float).
Proof.
  split; [|split].
  - intros nrhs n Hout. rewrite cg_oned_demo_invalid by exact Hout.
    split; [reflexivity|discriminate].
  - intros n. destruct (cg_oned_demo_0 (T := float) n) as (pb & E1 & E2).
    exists pb, rhs0. repeat split; assumption.
  - intros n. destruct (cg_oned_demo_1 (T := float) n) as (pb & E1 & E2).
    exists pb, rhs1. split; [exact E1|]. split; [exact E2|].
    intros X. unfold rhs1. cbn [smul ssub float_scalar].
    rewrite float_mul_comm. reflexivity.
Qed.

Lemma C10_cg_oned_rhs_witness :
  cg_oned_demo (T := float) 2 100 = raise (AssertionError (ValueError "Invalid rhs number.")) /\
  forall msg, cg_oned_demo (T := float) 2 100 <> raise (ValueError msg).
Proof. apply (proj1 C10_cg_oned_rhs 2 100). lia. Defined.

(** The same in exact arithmetic. *)
Lemma cg_oned_rhs_exact :
  (forall X : Q, rhs0 X = 10%Q) /\
  (forall X : Q, rhs1 X = (1000 * ((X - (1 # 2)) * (X - (1 # 2))))%Q).
Proof.
  split; intros X; [reflexivity|]. unfold rhs1. cbn [smul ssub Q_scalar].
  rewrite Q_mul_comm. reflexivity.
Qed.


(** * Further properties of [thermalblock.py] *)


(** The coordinates of the functional of a block lie inside the declared
    shape. *)
Lemma factory_coordinates_in_shape (nx ny x y : Z) :
  0 <= x < nx -> 0 <= y < ny ->
  np_offset (component_shape (parameter_functional_factory (nx, ny) x y))
            (coordinates (parameter_functional_factory (nx, ny) x y)) 0
  = Some ((ny - 1 - y) * nx + x).
Proof.
  intros Hx Hy. cbn [parameter_functional_factory component_shape coordinates fst snd np_offset].
  destruct (Z.ltb_spec (ny - y - 1) 0); [lia|].
  destruct (Z.leb_spec 0 (ny - y - 1)); [|lia].
  destruct (Z.ltb_spec (ny - y - 1) ny); [|lia].
  destruct (Z.ltb_spec x 0); [lia|].
  destruct (Z.leb_spec 0 x); [|lia].
  destruct (Z.ltb_spec x nx); [|lia].
  cbn [andb]. f_equal. lia.
Qed.

(** X2: the functionals of an nx-by-ny problem address the entries of the
    (ny, nx) parameter array one to one: the coordinates of every functional
    lie inside the declared shape, and every entry (r, c) of the array is
    the entry of exactly one functional, the one of block (c, ny-1-r), at
    position c*ny + (ny-1-r) of the tuple. *)
Theorem X2_coordinates_bijective :
  forall (T : Type) (S : Scalar T) (F : Type) (nx ny : Z) (range : T * T) (f : F),
    0 < nx -> 0 < ny ->
    exists pb,
      ThermalBlockProblem_init (nx, ny) range f = ret pb /\
      (forall k theta, diffusion_functionals pb !! k = Some theta ->
         component_shape theta = [ny; nx] /\
         exists r c, coordinates theta = [r; c] /\ 0 <= r < ny /\ 0 <= c < nx /\
                     np_offset (component_shape theta) (coordinates theta) 0
                     = Some (r * nx + c)) /\
      (forall r c, 0 <= r < ny -> 0 <= c < nx ->
         exists theta,
           diffusion_functionals pb !! Z.to_nat (c * ny + (ny - 1 - r)) = Some theta /\
           coordinates theta = [r; c] /\
           forall k theta', diffusion_functionals pb !! k = Some theta' ->
                            coordinates theta' = [r; c] ->
                            k = Z.to_nat (c * ny + (ny - 1 - r))).
Proof.
  intros T S F nx ny range f Hnx Hny.
  eexists. split; [apply init_success; lia|]. cbn [diffusion_functionals].
  split.
  - intros k theta Hk. rewrite list_lookup_fmap in Hk.
    destruct (product (xrange nx) (xrange ny) !! k) as [[x y]|] eqn:E; [|discriminate].
    injection Hk as <-. cbn [fst snd].
    apply blocks_lookup_inv in E as (Hx & Hy & _); [|lia|lia].
    split; [reflexivity|].
    exists (ny - y - 1), x. split; [reflexivity|]. split; [lia|]. split; [lia|].
    rewrite factory_coordinates_in_shape by assumption. f_equal. lia.
  - intros r c Hr Hc.
    exists (parameter_functional_factory (nx, ny) c (ny - 1 - r)). split.
    + rewrite list_lookup_fmap, (blocks_lookup nx ny c (ny - 1 - r)) by lia. reflexivity.
    + split; [cbn; f_equal; lia|].
      intros k theta' Hk Hco. rewrite list_lookup_fmap in Hk.
      destruct (product (xrange nx) (xrange ny) !! k) as [[x y]|] eqn:E; [|discriminate].
      injection Hk as <-. cbn in Hco. injection Hco as Hr' Hc'.
      apply blocks_lookup_inv in E as (Hx & Hy & ->); [|lia|lia].
      f_equal. subst x. nia.
Qed.

Lemma X2_coordinates_bijective_witness :
  exists pb,
    ThermalBlockProblem_init (T := float) (F := unit) (3, 2) (0.5, 1)%float tt = ret pb /\
    (forall k theta, diffusion_functionals pb !! k = Some theta ->
       component_shape theta = [2; 3] /\
       exists r c, coordinates theta = [r; c] /\ 0 <= r < 2 /\ 0 <= c < 3 /\
                   np_offset (component_shape theta) (coordinates theta) 0
                   = Some (r * 3 + c)) /\
    (forall r c, 0 <= r < 2 -> 0 <= c < 3 ->
       exists theta,
         diffusion_functionals pb !! Z.to_nat (c * 2 + (2 - 1 - r)) = Some theta /\
         coordinates theta = [r; c] /\
         forall k theta', diffusion_functionals pb !! k = Some theta' ->
                          coordinates theta' = [r; c] ->
                          k = Z.to_nat (c * 2 + (2 - 1 - r))).
Proof.
  apply (X2_coordinates_bijective float _ unit 3 2 (0.5, 1)%float tt); lia.
Defined.


(** ** The names of the functionals *)

Lemma pretty_N_char_no_underscore (d : N) : pretty_N_char d <> "_"%char.
Proof. unfold pretty_N_char. repeat case_match; discriminate. Qed.

Lemma pretty_N_go_no_underscore (x : N) :
  forall s, no_underscore s -> no_underscore (pretty_N_go x s).
Proof.
  induction (N.lt_wf_0 x) as [x _ IH]. intros s Hs.
  destruct (decide (0 < x)%N) as [Hx|Hx].
  - rewrite pretty_N_go_step by exact Hx. apply IH.
    + apply N.div_lt; lia.
    + split; [apply pretty_N_char_no_underscore|exact Hs].
  - assert (x = 0%N) as -> by lia. rewrite pretty_N_go_0. exact Hs.
Qed.

Lemma pretty_N_no_underscore (x : N) : no_underscore (pretty x).
Proof.
  unfold pretty, pretty_N. destruct (decide (x = 0%N)).
  - split; [discriminate|exact I].
  - apply pretty_N_go_no_underscore. exact I.
Qed.

Lemma pretty_Z_no_underscore (z : Z) : no_underscore (pretty z).
Proof.
  unfold pretty, pretty_Z. destruct z as [|p|p].
  - split; [discriminate|exact I].
  - apply pretty_N_no_underscore.
  - split; [discriminate|]. apply pretty_N_no_underscore.
Qed.

(** Two strings without underscore, each followed by an underscore and a
    rest: equal wholes have equal parts. *)
Lemma split_at_underscore (a1 a2 b1 b2 : string) :
  no_underscore a1 -> no_underscore a2 ->
  a1 +:+ String "_" b1 = a2 +:+ String "_" b2 -> a1 = a2 /\ b1 = b2.
Proof.
  revert a2. induction a1 as [|c1 a1 IH]; intros [|c2 a2] H1 H2 E; simpl in *.
  - injection E as <-. auto.
  - injection E as <- _. destruct H2 as [H2 _]. contradiction.
  - injection E as -> _. destruct H1 as [H1 _]. contradiction.
  - injection E as <- E. destruct H1 as [_ H1], H2 as [_ H2].
    destruct (IH a2 H1 H2 E) as [-> ->]. auto.
Qed.

Lemma factory_name (nb : Z * Z) (x y : Z) :
  name (parameter_functional_factory nb x y)
  = Some ("diffusion_" +:+ pretty x +:+ "_" +:+ pretty y).
Proof. reflexivity. Qed.

Lemma factory_name_inj (nb nb' : Z * Z) (x y x' y' : Z) :
  name (parameter_functional_factory nb x y) = name (parameter_functional_factory nb' x' y') ->
  x = x' /\ y = y'.
Proof.
  rewrite !factory_name. intros [= E].
  apply split_at_underscore in E as [Ex Ey]; try apply pretty_Z_no_underscore.
  split; eapply (inj pretty); eassumption.
Qed.

(** X3: the functionals of a problem carry pairwise distinct names: the
    functional of block (x, y) is named 'diffusion_x_y' with x and y in
    decimal, and two positions of the tuple with the same name are the same
    position. *)
Theorem X3_names_distinct :
  forall (T : Type) (S : Scalar T) (F : Type) (nx ny : Z) (range : T * T) (f : F),
    0 < nx -> 0 < ny ->
    exists pb,
      ThermalBlockProblem_init (nx, ny) range f = ret pb /\
      (forall x y, 0 <= x < nx -> 0 <= y < ny ->
         name <$> diffusion_functionals pb !! Z.to_nat (x * ny + y)
         = Some (Some ("diffusion_" +:+ pretty x +:+ "_" +:+ pretty y))) /\
      (forall k k' theta theta',
         diffusion_functionals pb !! k = Some theta ->
         diffusion_functionals pb !! k' = Some theta' ->
         name theta = name theta' -> k = k').
Proof.
  intros T S F nx ny range f Hnx Hny.
  eexists. split; [apply init_success; lia|]. cbn [diffusion_functionals]. split.
  - intros x y Hx Hy.
    rewrite list_lookup_fmap, (blocks_lookup nx ny x y Hx Hy). reflexivity.
  - intros k k' theta theta' Hk Hk' Hname. rewrite list_lookup_fmap in Hk, Hk'.
    destruct (product (xrange nx) (xrange ny) !! k) as [[x y]|] eqn:E; [|discriminate].
    destruct (product (xrange nx) (xrange ny) !! k') as [[x' y']|] eqn:E'; [|discriminate].
    injection Hk as <-. injection Hk' as <-. cbn [fst snd] in Hname.
    apply factory_name_inj in Hname as [<- <-].
    apply blocks_lookup_inv in E as (_ & _ & ->); [|lia|lia].
    apply blocks_lookup_inv in E' as (_ & _ & ->); [|lia|lia]. reflexivity.
Qed.

Lemma X3_names_distinct_witness :
  exists pb,
    ThermalBlockProblem_init (T := float) (F := unit) (12, 11) (0.5, 1)%float tt = ret pb /\
    (forall x y, 0 <= x < 12 -> 0 <= y < 11 ->
       name <$> diffusion_functionals pb !! Z.to_nat (x * 11 + y)
       = Some (Some ("diffusion_" +:+ pretty x +:+ "_" +:+ pretty y))) /\
    (forall k k' theta theta',
       diffusion_functionals pb !! k = Some theta ->
       diffusion_functionals pb !! k' = Some theta' ->
       name theta = name theta' -> k = k').
Proof.
  apply (X3_names_distinct float _ unit 12 11 (0.5, 1)%float tt); lia.
Defined.


(** ** The block functions away from the blocks *)

(** A point whose cell index lies on the axis lies in the unit interval. *)
Lemma cell_range_inv (n : Z) (q : Q) :
  0 < n -> 0 <= Qfloor (q * inject_Z n) < n -> (0 <= q)%Q /\ (q < 1)%Q.
Proof.
  intros Hn [Hlo Hhi].
  assert (Hn' : (0 < inject_Z n)%Q) by (unfold Qlt; simpl; lia).
  pose proof (Qfloor_le (q * inject_Z n)) as Hfl.
  pose proof (Qlt_floor (q * inject_Z n)) as Hfu.
  assert (H0 : (0 <= q * inject_Z n)%Q).
  { eapply Qle_trans; [|exact Hfl]. change 0%Q with (inject_Z 0).
    rewrite <- Zle_Qle. exact Hlo. }
  assert (H1 : (q * inject_Z n < inject_Z n)%Q).
  { eapply Qlt_le_trans; [exact Hfu|]. rewrite <- Zle_Qle. lia. }
  split.
  - destruct (Qlt_le_dec q 0) as [Hneg|]; [|assumption]. exfalso. nra.
  - destruct (Qlt_le_dec q 1) as [|Hge]; [assumption|]. exfalso. nra.
Qed.

Lemma sum_all_zero (l : list Q) :
  (forall k v, l !! k = Some v -> v = 0%Q) -> (foldr Qplus 0 l == 0)%Q.
Proof.
  induction l as [|a l IH]; intros Hz; simpl; [reflexivity|].
  rewrite (Hz 0%nat a eq_refl), IH; [reflexivity|].
  intros k v Hv. exact (Hz (S k) v Hv).
Qed.

(** X4: in exact arithmetic the block functions vanish outside the
    half-open unit square: at a point with p0 < 0, p0 >= 1, p1 < 0 or
    p1 >= 1 every diffusion function of the problem evaluates to 0, and so
    does their sum. *)
Theorem X4_zero_outside :
  forall (F : Type) (nx ny : Z) (range : Q * Q) (f : F) (q : Q * Q),
    0 < nx -> 0 < ny ->
    ~ ((0 <= fst q)%Q /\ (fst q < 1)%Q /\ (0 <= snd q)%Q /\ (snd q < 1)%Q) ->
    exists pb,
      ThermalBlockProblem_init (nx, ny) range f = ret pb /\
      (forall k d, diffusion_functions pb !! k = Some d -> evaluate d q None = 0%Q) /\
      (foldr Qplus 0 (map (fun d => evaluate d q None) (diffusion_functions pb)) == 0)%Q.
Proof.
  intros F nx ny range f q Hnx Hny Hout.
  eexists. split; [apply init_success; lia|]. cbn [diffusion_functions].
  assert (Hzero : forall k d,
    map (fun xy => mk_ThermalBlockDiffusionFunction (fst xy) (snd xy)
                     (sdiv (of_Z 1) (of_Z nx)) (sdiv (of_Z 1) (of_Z ny)))
        (product (xrange nx) (xrange ny)) !! k = Some d ->
    evaluate d q None = 0%Q).
  { intros k d Hk. rewrite list_lookup_fmap in Hk.
    destruct (product (xrange nx) (xrange ny) !! k) as [[x y]|] eqn:E; [|discriminate].
    injection Hk as <-. cbn [fst snd].
    apply blocks_lookup_inv in E as (Hx & Hy & _); [|lia|lia].
    change (evaluate (block_function nx ny x y) q None = 0%Q).
    rewrite evaluate_exact.
    destruct (in_block nx ny x y q) eqn:Hin; [|reflexivity].
    apply in_block_iff in Hin as [Ex Ey]; [|lia|lia]. subst x y.
    destruct (cell_range_inv nx (fst q) Hnx Hx) as [? ?].
    destruct (cell_range_inv ny (snd q) Hny Hy) as [? ?].
    exfalso. apply Hout. auto. }
  split; [exact Hzero|].
  apply sum_all_zero. intros k v Hv. rewrite list_lookup_fmap in Hv.
  destruct (_ !! k) as [d|] eqn:E in Hv; [|discriminate].
  injection Hv as <-. eapply Hzero. exact E.
Qed.

Lemma X4_zero_outside_witness :
  exists pb,
    ThermalBlockProblem_init (F := unit) (2, 2) (1 # 10, 1)%Q tt = ret pb /\
    (forall k d, diffusion_functions pb !! k = Some d -> evaluate d (1, 1 # 2)%Q None = 0%Q) /\
    (foldr Qplus 0 (map (fun d => evaluate d (1, 1 # 2)%Q None) (diffusion_functions pb)) == 0)%Q.
Proof.
  apply (X4_zero_outside unit 2 2 (1 # 10, 1)%Q tt (1, 1 # 2)%Q); [lia|lia|].
  intros (_ & H & _). discriminate H.
Defined.

(** ** Points that are not numbers *)

Lemma float_leb_nan_r (x : float) : (x <=? nan)%float = false.
Proof.
  apply not_true_is_false. rewrite float_leb_key.
  intros (a & b & _ & Hb & _). vm_compute in Hb. discriminate Hb.
Qed.

Lemma float_ltb_nan_l (x : float) : (nan <? x)%float = false.
Proof.
  apply not_true_is_false. rewrite float_ltb_key.
  intros (a & b & Ha & _ & _). vm_compute in Ha. discriminate Ha.
Qed.

Lemma sf_key_top (f : spec_float) (k : Z * Z * Z) :
  sf_key f = Some k -> fst (fst k) < 2 \/ k = (2, 0, 0).
Proof.
  destruct f as [s|s| |s m e]; simpl; intros E; try discriminate E;
    injection E as <-; try destruct s; cbn [fst snd]; auto; left; lia.
Qed.

(** Nothing lies above plus infinity. *)
Lemma float_ltb_infinity_l (x : float) : (infinity <? x)%float = false.
Proof.
  apply not_true_is_false. rewrite float_ltb_key.
  intros (a & b & Ha & Hb & Hlt). vm_compute in Ha. injection Ha as <-.
  apply sf_key_top in Hb as [Hb | ->]; [|discriminate Hlt].
  destruct b as [[b1 b2] b3]. unfold lex3 in Hlt. cbn [fst snd] in *.
  destruct (Z.compare_spec 2 b1); try discriminate; lia.
Qed.

(** X5: in binary64 a block function returns 0.0, not NaN, at a point with
    a NaN coordinate, and 0.0 at a point with a coordinate plus infinity,
    whatever the block and its widths are. *)
Theorem X5_not_a_number :
  forall (d : ThermalBlockDiffusionFunction float) (a : float)
         (mu : option (gmap string (ndarray float))),
    evaluate d (nan, a) mu = 0%float /\
    evaluate d (a, nan) mu = 0%float /\
    evaluate d (infinity, a) mu = 0%float /\
    evaluate d (a, infinity) mu = 0%float.
Proof.
  intros d a mu. unfold evaluate. cbn [fst snd].
  repeat split; rewrite float_indicator.
  - cbn [sleb float_scalar]. rewrite float_leb_nan_r. reflexivity.
  - cbn [sleb float_scalar]. rewrite float_leb_nan_r, !andb_false_r. reflexivity.
  - cbn [sltb float_scalar]. rewrite float_ltb_infinity_l, !andb_false_r. reflexivity.
  - cbn [sltb float_scalar]. rewrite float_ltb_infinity_l, !andb_false_r. reflexivity.
Qed.


(** * Further properties of [thermalblock_gui.py] *)

(** ** The spin boxes and the parameter built from them *)

Lemma ParamRuler_cells_product (args : Args) :
  ParamRuler_cells args = product (xrange (XBLOCKS args)) (xrange (YBLOCKS args)).
Proof. reflexivity. Qed.

Section SpinFacts.
Context {T : Type} `{Scalar T}.

Lemma ParamRuler_init_cells (args : Args) :
  ParamRuler_init (T := T) args = map (fun _ => PARAM_MIN) (ParamRuler_cells args).
Proof.
  unfold ParamRuler_init, ParamRuler_cells.
  induction (xrange (XBLOCKS args)) as [|i l IH]; simpl; [reflexivity|].
  rewrite map_app, map_map, IH. reflexivity.
Qed.

Lemma reshape_mismatch (X Y : Z) (spins : list T) :
  Z.of_nat (length spins) <> X * Y ->
  reshape (np_array spins) [X; Y]
  = raise (ValueError "total size of new array must be unchanged").
Proof.
  intros Hne. unfold reshape, np_array, size_of_shape. cbn [data foldr].
  destruct (Z.eqb_spec (X * (Y * 1)) (Z.of_nat (length spins))) as [E|_]; [lia|].
  rewrite andb_false_r. reflexivity.
Qed.

End SpinFacts.

(** X6: the spin boxes that [ParamRuler.__init__] creates are exactly what
    [solve_update] needs: there are XBLOCKS*YBLOCKS of them, the one created
    for (i, j) is number i*YBLOCKS + j of [self.spins] and sits in grid cell
    (i, j), all show PARAM_MIN, and the reshape of [solve_update] succeeds
    on them and gives a 'diffusion' component of shape (XBLOCKS, YBLOCKS);
    with any other number of values the reshape raises ValueError. *)
Theorem X6_spins_fit :
  forall (T : Type) (S : Scalar T) (args : Args),
    0 <= XBLOCKS args -> 0 <= YBLOCKS args ->
    Z.of_nat (length (ParamRuler_init (T := T) args)) = XBLOCKS args * YBLOCKS args /\
    (forall i j, 0 <= i < XBLOCKS args -> 0 <= j < YBLOCKS args ->
       ParamRuler_cells args !! Z.to_nat (i * YBLOCKS args + j) = Some (i, j) /\
       ParamRuler_init (T := T) args !! Z.to_nat (i * YBLOCKS args + j) = Some PARAM_MIN) /\
    solve_update_parameter args (ParamRuler_init args)
      = ret {[ "diffusion" :=
                 mk_ndarray [XBLOCKS args; YBLOCKS args] (ParamRuler_init (T := T) args) ]} /\
    (forall spins : list T,
       Z.of_nat (length spins) <> XBLOCKS args * YBLOCKS args ->
       solve_update_parameter args spins
       = raise (ValueError "total size of new array must be unchanged")).
Proof.
  intros T S args HX HY.
  pose proof (length_ParamRuler_init (T := T) args HX HY) as Hlen.
  split; [exact Hlen|]. split; [|split].
  - intros i j Hi Hj.
    pose proof (blocks_lookup _ _ i j Hi Hj) as Hc.
    rewrite <- ParamRuler_cells_product in Hc. split; [exact Hc|].
    rewrite ParamRuler_init_cells, list_lookup_fmap, Hc. reflexivity.
  - apply solve_update_parameter_ok; assumption.
  - intros spins Hne. unfold solve_update_parameter.
    rewrite reshape_mismatch by exact Hne. reflexivity.
Qed.

Lemma X6_spins_fit_witness :
  let args := mk_Args 2 3 60 3 10 "trivial" in
  Z.of_nat (length (ParamRuler_init (T := float) args)) = 2 * 3 /\
  solve_update_parameter args (ParamRuler_init args)
    = ret {[ "diffusion" := mk_ndarray [2; 3] (replicate 6 (PARAM_MIN (T := float))) ]}.
Proof.
  intros args.
  destruct (X6_spins_fit float _ args ltac:(simpl; lia) ltac:(simpl; lia)) as (H1 & _ & H3 & _).
  split; [exact H1|exact H3].
Defined.

(** X7: with as many blocks in x as in y, indexing the array that
    [solve_update] builds at the coordinates of the functional of block
    (x, y) gives the value of the spin box in row n-1-y and column x of the
    panel: the bottom row of spin boxes belongs to the blocks with y = 0. *)
Theorem X7_square_panel :
  forall (T : Type) (S : Scalar T) (args : Args) (n x y : Z) (spins : list T),
    XBLOCKS args = n -> YBLOCKS args = n ->
    0 <= x < n -> 0 <= y < n -> Z.of_nat (length spins) = n * n ->
    exists mu a v k,
      solve_update_parameter args spins = ret mu /\
      mu !! "diffusion" = Some a /\
      shape a = component_shape (parameter_functional_factory (n, n) x y) /\
      np_item a (coordinates (parameter_functional_factory (n, n) x y)) = ret v /\
      ParamRuler_cells args !! k = Some (n - 1 - y, x) /\
      spins !! k = Some v.
Proof.
  intros T S args n x y spins HX HY Hx Hy Hlen.
  destruct (spins !! Z.to_nat ((n - 1 - y) * n + x)) as [v|] eqn:Hv;
    [|apply lookup_ge_None in Hv; nia].
  eexists _, _, v, (Z.to_nat ((n - 1 - y) * n + x)).
  split; [apply solve_update_parameter_ok; rewrite ?HX, ?HY; lia|].
  split; [apply lookup_singleton_eq|]. rewrite HX, HY.
  split; [reflexivity|]. split; [|split; [|exact Hv]].
  - pose proof (factory_coordinates_in_shape n n x y Hx Hy) as Ho.
    unfold np_item. cbn [shape data].
    cbn [parameter_functional_factory component_shape coordinates fst snd] in Ho |- *.
    rewrite Ho, Hv. reflexivity.
  - rewrite ParamRuler_cells_product, HX, HY. apply blocks_lookup; lia.
Qed.

Lemma X7_square_panel_witness :
  let args := mk_Args 2 2 60 3 10 "trivial" in
  exists mu a v k,
    solve_update_parameter args [1; 2; 3; 4]%float = ret mu /\
    mu !! "diffusion" = Some a /\
    shape a = component_shape (parameter_functional_factory (2, 2) 1 0) /\
    np_item a (coordinates (parameter_functional_factory (2, 2) 1 0)) = ret v /\
    ParamRuler_cells args !! k = Some (2 - 1 - 0, 1) /\
    [1; 2; 3; 4]%float !! k = Some v.
Proof.
  intros args.
  apply (X7_square_panel float _ args 2 1 0 [1; 2; 3; 4]%float); first [reflexivity | lia].
Defined.


(** ** What [ReducedSim.solve] returns *)

Section ReducedSimResult.
Context {P RD RC RVec U : Type}.
Context (greedy_call : result (RD * RC)).
Context (rd_solve : RD -> P -> result RVec).
Context (reconstruct : RC -> RVec -> result U).

Local Abbreviation solve := (ReducedSim_solve greedy_call rd_solve reconstruct).
Local Abbreviation calls := (ReducedSim_calls greedy_call rd_solve reconstruct).
Local Abbreviation sim := (ReducedSim (P := P) (RD := RD) (RC := RC)).

Local Abbreviation stored := (stored_inv greedy_call).

Lemma stored_solve (mu : P) (self : sim) :
  stored self ->
  stored (snd (solve mu self)) /\
  fst (solve mu self)
  = (let* (rd, rc) := greedy_call in let* u := rd_solve rd mu in reconstruct rc u) /\
  first (snd (solve mu self)) = match greedy_call with inl _ => true | inr _ => false end.
Proof.
  unfold stored_inv, ReducedSim_solve, ReducedSim_first.
  intros [Hf|(rd & rc & Hf & Hg & Hrd & Hrc)]; rewrite Hf.
  - destruct greedy_call as [e|[rd rc]] eqn:Hg; cbn.
    + split; [left; exact Hf|]. split; [reflexivity|exact Hf].
    + destruct (rd_solve rd mu) as [e|u]; cbn;
        (split; [right; exists rd, rc; repeat split|split; reflexivity]).
  - rewrite Hrc, Hrd, Hg. cbn.
    destruct (rd_solve rd mu) as [e|u]; cbn; rewrite ?Hf;
      (split; [right; exists rd, rc; repeat split; assumption|split; reflexivity]).
Qed.

Lemma stored_calls (mus : list P) :
  forall self : sim, stored self -> stored (calls mus self).
Proof.
  induction mus as [|mu mus IH]; intros self Hinv; simpl; [exact Hinv|].
  apply IH, stored_solve, Hinv.
Qed.

End ReducedSimResult.

(** X8: whatever calls of [ReducedSim.solve] came before (and however they
    ended), [solve(mu)] returns what building, solving the reduced model
    at [mu] and reconstructing give one after the other, and raises what
    the first of the three to fail raises; the lazy build does not show in
    the result.  After the call the flag [first] is cleared exactly if the
    call of [greedy] succeeds, also when the reduced solve or the
    reconstruction raised. *)
Theorem X8_reduced_solve_result :
  forall (P RD RC RVec U : Type) (greedy_call : result (RD * RC))
         (rd_solve : RD -> P -> result RVec) (reconstruct : RC -> RVec -> result U)
         (mus : list P) (mu : P),
    let self := ReducedSim_calls greedy_call rd_solve reconstruct mus ReducedSim_init in
    fst (ReducedSim_solve greedy_call rd_solve reconstruct mu self)
    = (let* (rd, rc) := greedy_call in let* u := rd_solve rd mu in reconstruct rc u) /\
    first (snd (ReducedSim_solve greedy_call rd_solve reconstruct mu self))
    = match greedy_call with inl _ => true | inr _ => false end.
Proof.
  intros P RD RC RVec U greedy_call rd_solve reconstruct mus mu self.
  assert (Hinv : stored_inv greedy_call self).
  { apply stored_calls. left. reflexivity. }
  destruct (stored_solve greedy_call rd_solve reconstruct mu self Hinv) as (_ & E1 & E2).
  split; [exact E1|exact E2].
Qed.

(** ** [SimBase.__init__] *)

(** X9: [SimBase.__init__] raises ZeroDivisionError when XBLOCKS, YBLOCKS or
    the grid argument is zero, before the discretizer is called (so for
    every discretizer); this is how both simulations of the GUI fail to
    construct. *)
Theorem X9_simbase_zero :
  forall (T : Type) (S : Scalar T) (C F : Type)
         (discretize_component : ThermalBlockDiffusionFunction T -> C)
         (rhs : F) (args : Args),
    XBLOCKS args = 0 \/ YBLOCKS args = 0 \/ grid args = 0 ->
    SimBase_init discretize_component rhs args = raise ZeroDivisionError.
Proof.
  intros T S C F dc rhs args Hz. unfold SimBase_init, ThermalBlockProblem_init, true_div_1.
  cbn [fst snd].
  destruct (Z.eqb_spec (XBLOCKS args) 0) as [|HX]; [reflexivity|].
  destruct (Z.eqb_spec (YBLOCKS args) 0) as [|HY]; [reflexivity|].
  destruct (Z.eqb_spec (grid args) 0) as [|HG]; [reflexivity|]. lia.
Qed.

Lemma X9_simbase_zero_witness :
  SimBase_init (T := float) (fun f : ThermalBlockDiffusionFunction float => f) tt
               (mk_Args 2 2 0 3 10 "trivial")
  = raise ZeroDivisionError.
Proof.
  apply (X9_simbase_zero float _ _ unit (fun f => f) tt (mk_Args 2 2 0 3 10 "trivial")).
  right. right. reflexivity.
Defined.

(** ** [cg_oned_demo] to its end *)

Section CgOnedRunFacts.
Context {T : Type} `{Scalar T} {D M V : Type}.
Context (solve : D -> M -> result V).



End CgOnedRunFacts.



(** ** [SolutionWidget.set] in exact arithmetic *)














(** ** [SolutionWidget.set] in binary64 *)

Lemma float_sub_nan_r (x : float) : (x - nan)%float = nan.
Proof.
  apply Prim2SF_inj. rewrite FloatAxioms.sub_spec.
  change (Prim2SF nan) with S754_nan. destruct (Prim2SF x); reflexivity.
Qed.

Lemma float_div_nan_l (x : float) : (nan / x)%float = nan.
Proof.
  apply Prim2SF_inj. rewrite FloatAxioms.div_spec. reflexivity.
Qed.

Lemma float_leb_nan_l (x : float) : (nan <=? x)%float = false.
Proof. rewrite FloatAxioms.leb_spec. reflexivity. Qed.

(** x - x is +0 for a finite x and NaN otherwise; divided by itself it is
    NaN in both cases. *)
Lemma float_self_normalised (c : float) : ((c - c) / (c - c))%float = nan.
Proof.
  apply Prim2SF_inj. rewrite FloatAxioms.div_spec, FloatAxioms.sub_spec.
  change (Prim2SF nan) with S754_nan. unfold SF64div, SF64sub.
  destruct (Prim2SF c) as [[|]|[|]| |s m e]; try reflexivity.
  unfold SFsub. cbv zeta. rewrite Z.sub_diag. reflexivity.
Qed.

Lemma float_minimum_nan (a b : float) : a = nan \/ b = nan -> np_minimum a b = nan.
Proof.
  unfold np_minimum. cbn [sleb float_scalar]. intros [-> | ->].
  - rewrite !float_leb_nan_l. reflexivity.
  - rewrite float_leb_nan_r. cbn [orb].
    destruct (a <=? a)%float eqn:E; cbn [negb]; [reflexivity|].
    apply Prim2SF_inj. change (Prim2SF nan) with S754_nan.
    rewrite FloatAxioms.leb_spec in E. unfold SFleb in E.
    destruct (Prim2SF a) as [s|[|]| |[|] m e]; try reflexivity; cbn in E; try discriminate E.
    + rewrite Z.compare_refl in E.
      assert (Pos.compare_cont Eq m m = Eq) as Em by apply Pos.compare_cont_refl.
      change PosDef.Pos.compare_cont with Pos.compare_cont in E.
      rewrite Em in E. discriminate E.
    + rewrite Z.compare_refl in E.
      assert (Pos.compare_cont Eq m m = Eq) as Em by apply Pos.compare_cont_refl.
      change PosDef.Pos.compare_cont with Pos.compare_cont in E.
      rewrite Em in E. discriminate E.
Qed.

Lemma float_maximum_nan (a b : float) : a = nan \/ b = nan -> np_maximum a b = nan.
Proof.
  unfold np_maximum. cbn [sleb float_scalar]. intros [-> | ->].
  - rewrite float_leb_nan_l, float_leb_nan_r. reflexivity.
  - rewrite float_leb_nan_l. cbn [orb].
    pose proof (float_minimum_nan a nan (or_intror eq_refl)) as Hm.
    unfold np_minimum in Hm. cbn [sleb float_scalar] in Hm.
    rewrite float_leb_nan_r in Hm. cbn [orb] in Hm. exact Hm.
Qed.

Lemma fold_nan (f : float -> float -> float) (rest : list float) :
  (forall a b, a = nan \/ b = nan -> f a b = nan) ->
  forall u, u = nan \/ nan ∈ rest -> fold_left f rest u = nan.
Proof.
  intros Hf. induction rest as [|r rest IH]; intros u [Hu|Hin]; simpl.
  - exact Hu.
  - inversion Hin.
  - apply IH. left. apply Hf. left. exact Hu.
  - apply IH. apply elem_of_cons in Hin as [<- | Hin]; [left|right; exact Hin].
    apply Hf. right. reflexivity.
Qed.

Lemma fold_constant (f : float -> float -> float) (c : float) (k : nat) :
  f c c = c -> fold_left f (replicate k c) c = c.
Proof. intros Hf. induction k as [|k IH]; simpl; [reflexivity|]. rewrite Hf. exact IH. Qed.

Lemma map_replicate_const {A B} (f : A -> B) (b : B) (l : list A) :
  (forall a, f a = b) -> map f l = replicate (length l) b.
Proof. intros Hf. induction l as [|a l IH]; simpl; [reflexivity|]. rewrite Hf, IH. reflexivity. Qed.

(** X13: in binary64 a single NaN among the values makes
    [SolutionWidget.set] turn every value into NaN: the minimum and the
    maximum are NaN, and so is every difference and quotient. *)
Theorem X13_nan_spreads :
  forall U : list float,
    nan ∈ U -> SolutionWidget_set U = ret (replicate (length U) nan).
Proof.
  intros U Hin. unfold SolutionWidget_set.
  destruct U as [|u rest]; [inversion Hin|].
  assert (Hcase : u = nan \/ nan ∈ rest).
  { apply elem_of_cons in Hin as [<- | Hin]; [left; reflexivity|right; exact Hin]. }
  unfold np_min, np_max.
  rewrite (fold_nan np_minimum rest float_minimum_nan u Hcase).
  rewrite (fold_nan np_maximum rest float_maximum_nan u Hcase).
  cbn [bind ret]. unfold ret. f_equal. rewrite map_map.
  apply map_replicate_const. intros a. cbn [ssub sdiv float_scalar].
  rewrite float_sub_nan_r. apply float_div_nan_l.
Qed.

Lemma X13_nan_spreads_witness :
  SolutionWidget_set [1; nan; 3]%float = ret (replicate 3 nan).
Proof.
  apply (X13_nan_spreads [1; nan; 3]%float). apply list_elem_of_In. simpl. auto.
Defined.

(** X14: in binary64 [SolutionWidget.set] turns an array whose values are
    all the same into NaNs (the range it divides by is 0.0, or NaN for an
    infinite value).  [SolutionWidget.__init__] passes an array of ones:
    for a grid with at least one vertex the widget starts with NaN at every
    vertex, and a resize leaves it so; for a grid without vertices the
    constructor raises ValueError, as there is no minimum. *)
Theorem X14_constant_field :
  (forall (c : float) (k : nat),
     SolutionWidget_set (replicate (S k) c) = ret (replicate (S k) nan)) /\
  (forall size : Z, 0 < size ->
     SolutionWidget_init (T := float) size = ret (replicate (Z.to_nat size) nan) /\
     SolutionWidget_resizeGL (replicate (Z.to_nat size) nan)
     = ret (replicate (Z.to_nat size) nan)) /\
  SolutionWidget_init (T := float) 0
  = raise (ValueError "zero-size array to reduction operation minimum which has no identity").
Proof.
  assert (Hconst : forall (c : float) (k : nat),
            SolutionWidget_set (replicate (S k) c) = ret (replicate (S k) nan)).
  { intros c k. unfold SolutionWidget_set, np_min, np_max. cbn [replicate].
    rewrite !fold_constant by (unfold np_minimum, np_maximum; destruct (_ || _); reflexivity).
    cbn [bind ret]. unfold ret. f_equal. rewrite map_map.
    change (c :: replicate k c) with (replicate (S k) c).
    match goal with |- map ?f ?l = _ => change (map f l) with (f <$> l) end.
    rewrite fmap_replicate. cbn [ssub sdiv float_scalar].
    rewrite float_self_normalised. reflexivity. }
  split; [exact Hconst|]. split; [|reflexivity].
  intros size Hsize. unfold SolutionWidget_init, SolutionWidget_resizeGL.
  destruct (Z.ltb_spec size 0) as [|_]; [lia|].
  destruct (Z.to_nat size) as [|k] eqn:Ek; [lia|].
  split; apply Hconst.
Qed.

Lemma X14_constant_field_witness :
  SolutionWidget_init (T := float) 4 = ret (replicate 4 nan).
Proof. apply (proj1 (proj2 X14_constant_field) 4). lia. Defined.
